(** * gcp-monorepo-secret-manager: version retention and cleanup

    A shallow embedding of [GcpMonorepoSecretManager] (the class that
    uploads environment files to Secret Manager and prunes old secret
    versions) together with the parts of [ConfigManager] and [types] it
    relies on.

    Conventions of the embedding:
    - an optional property of a JS object is an [option]; [None] stands
      for [undefined];
    - [createTime.seconds] is a number, and timestamps (it and
      [Date.getTime()]) are integers ([Z]); the values handled are far
      inside the range where JS numbers are exact;
    - [setDate(getDate() - d)] moves a date back by [d] calendar days of
      the local time zone: [d] days of 86 400 000 ms, corrected by the
      clock changes in between, which a [Date] carries;
    - [Array.prototype.sort] is stable (ECMAScript 2019), so with the
      comparator of the source its result is the stable sort by
      decreasing creation time;
    - the Secret Manager client is an arbitrary state machine answering
      each request with a result or an [Error]; every request and every
      console line is recorded in a trace. *)

From Stdlib Require Import ZArith List String Bool Lia Arith DecimalString.
From Stdlib Require Import Sorting.Sorted Sorting.Permutation.
Import ListNotations.

Local Open Scope string_scope.
Local Open Scope list_scope.
Local Open Scope Z_scope.

(** ** types.ts *)

Inductive Environment := staging | production.

Record ServiceConfig := {
  svc_name : string;
  envPath : string;
  targetPath : string;
  secretPrefix : string
}.

Record DeletePolicy := {
  maxVersions : option Z;
  maxAgeDays : option Z;
  enabled : option bool
}.

Record SecretsConfig := {
  services : list ServiceConfig;
  projectIds : Environment -> string;
  deletePolicy : option DeletePolicy
}.

(** ** Secret versions as the client library hands them back *)

Record Timestamp := { seconds : option Z }.

Record SecretVersion := {
  name : option string;
  createTime : option Timestamp;
  state : option string
}.

(** [a.createTime?.seconds] *)
Definition createSeconds (v : SecretVersion) : option Z :=
  match createTime v with
  | Some t => seconds t
  | None => None
  end.

(** JS truthiness of an optional number, an optional string and an
    optional boolean. *)
Definition truthyNum (o : option Z) : bool :=
  match o with Some z => negb (z =? 0) | None => false end.

Definition truthyStr (o : option string) : bool :=
  match o with Some s => negb (s =? "")%string | None => false end.

Definition truthyBool (o : option bool) : bool :=
  match o with Some b => b | None => false end.

(** [x === y] on optional strings. *)
Definition strictEq (a b : option string) : bool :=
  match a, b with
  | Some x, Some y => (x =? y)%string
  | None, None => true
  | _, _ => false
  end.

(** ** ConfigManager.getDeletePolicy *)

Definition defaultDeletePolicy : DeletePolicy :=
  {| maxVersions := Some 10; maxAgeDays := Some 30; enabled := Some true |}.

Definition getDeletePolicy (cfg : SecretsConfig) : DeletePolicy :=
  match deletePolicy cfg with
  | Some p => p
  | None => defaultDeletePolicy
  end.

(** ** The retention decision of cleanupSecretVersions *)

(** The filter callback: [v.state === 'ENABLED' || v.state === 'DISABLED']. *)
Definition isLive (v : SecretVersion) : bool :=
  strictEq (state v) (Some "ENABLED") || strictEq (state v) (Some "DISABLED").

Definition liveSet (versions : list SecretVersion) : list SecretVersion :=
  filter isLive versions.

(** [new Date(a.createTime?.seconds ? Number(a.createTime.seconds) * 1000 : 0).getTime()] *)
Definition timeOf (v : SecretVersion) : Z :=
  if truthyNum (createSeconds v)
  then match createSeconds v with Some s => s * 1000 | None => 0 end
  else 0.

(** The comparator returns [timeB - timeA]: [a] goes before [b] when it is
    strictly newer, and elements that compare equal keep their order. *)
Fixpoint insertNewestFirst (v : SecretVersion) (l : list SecretVersion)
  : list SecretVersion :=
  match l with
  | [] => [v]
  | w :: l' =>
      if timeOf w <=? timeOf v then v :: w :: l'
      else w :: insertNewestFirst v l'
  end.

Definition sortNewestFirst (l : list SecretVersion) : list SecretVersion :=
  fold_right insertNewestFirst [] l.

Definition sortedVersions (versions : list SecretVersion) : list SecretVersion :=
  sortNewestFirst (liveSet versions).

(** [newerFirst a b]: [a] may stand before [b] in a newest-first list. *)
Definition newerFirst (a b : SecretVersion) : Prop := timeOf b <= timeOf a.

(** [deletePolicy.maxVersions && deletePolicy.maxVersions > 0] and the same
    test on [maxAgeDays]. *)
Definition positive (o : option Z) : bool :=
  truthyNum o && match o with Some z => 0 <? z | None => false end.

(** [sortedVersions.slice(deletePolicy.maxVersions)], pushed on the empty
    array when the count rule applies. *)
Definition excessVersions (p : DeletePolicy) (sorted : list SecretVersion)
  : list SecretVersion :=
  if positive (maxVersions p)
  then match maxVersions p with
       | Some m => skipn (Z.to_nat m) sorted
       | None => []
       end
  else [].

(** What the count rule keeps: [sortedVersions] without its excess. *)
Definition keptByCount (p : DeletePolicy) (sorted : list SecretVersion)
  : list SecretVersion :=
  if positive (maxVersions p)
  then match maxVersions p with
       | Some m => firstn (Z.to_nat m) sorted
       | None => sorted
       end
  else sorted.

Definition msPerDay : Z := 86400000.

(** The [Date] that [new Date()] yields, as far as this code looks at
    it: the instant it holds, in milliseconds since the epoch, and what
    [setDate(getDate() - days)] makes of it. That call works on the
    calendar of the time zone of the process: it keeps the wall-clock
    time and moves the day, so it goes back by [days] times 24 hours
    corrected by the clock changes that fall in between. [clockChange]
    is that correction: 0 in UTC and whenever the clocks did not change,
    an hour less when they were set back in between (the cutoff is then
    an hour earlier), an hour more when they were set forward. *)
Record Date := {
  getTime : Z;
  clockChange : Z -> Z
}.

(** A date in a zone without clock changes, such as UTC. *)
Definition utc (instant : Z) : Date :=
  {| getTime := instant; clockChange := fun _ => 0 |}.

(** [cutoffDate], as milliseconds since the epoch, for [new Date()] = [now]. *)
Definition cutoffDate (now : Date) (days : Z) : Z :=
  getTime now - days * msPerDay + clockChange now days.

(** The callback of [sortedVersions.filter] under the age rule. *)
Definition olderThan (cutoff : Z) (version : SecretVersion) : bool :=
  if negb (truthyNum (createSeconds version)) then false
  else match createSeconds version with
       | Some s => s * 1000 <? cutoff
       | None => false
       end.

Definition oldVersions (p : DeletePolicy) (now : Date) (sorted : list SecretVersion)
  : list SecretVersion :=
  if positive (maxAgeDays p)
  then match maxAgeDays p with
       | Some d => filter (olderThan (cutoffDate now d)) sorted
       | None => []
       end
  else [].

(** [versionsToDestroy.find(v => v.name === oldVersion.name)] is defined. *)
Definition alreadyMarked (acc : list SecretVersion) (oldVersion : SecretVersion)
  : bool :=
  existsb (fun v => strictEq (name v) (name oldVersion)) acc.

(** The [forEach] that pushes the old versions not marked yet. *)
Definition pushUnmarked (acc olds : list SecretVersion) : list SecretVersion :=
  fold_left
    (fun acc oldVersion =>
       if alreadyMarked acc oldVersion then acc else acc ++ [oldVersion])
    olds acc.

(** [versionsToDestroy] before the [Always keep at least 1 version] step. *)
Definition markedVersions (p : DeletePolicy) (now : Date)
  (sorted : list SecretVersion) : list SecretVersion :=
  pushUnmarked (excessVersions p sorted) (oldVersions p now sorted).

(** [if (versionsToDestroy.length >= sortedVersions.length)
       versionsToDestroy.splice(-1, 1)] *)
Definition keepAtLeastOne (sorted marked : list SecretVersion)
  : list SecretVersion :=
  if (List.length sorted <=? List.length marked)%nat then removelast marked else marked.

(** [versionsToDestroy] as the destroy loop reads it, for a listing that
    passed the [versions.length <= 1] test. *)
Definition versionsToDestroy (p : DeletePolicy) (now : Date)
  (versions : list SecretVersion) : list SecretVersion :=
  let sorted := sortedVersions versions in
  keepAtLeastOne sorted (markedVersions p now sorted).

(** The sorted versions that a destroy list does not name. *)
Definition survivors (sorted destroyed : list SecretVersion)
  : list SecretVersion :=
  filter (fun v => negb (alreadyMarked destroyed v)) sorted.

(** The whole decision, guards included: nothing when the policy is not
    enabled, when the listing is missing or has at most one entry. *)
Definition cleanupPlan (p : DeletePolicy) (now : Date)
  (listing : option (list SecretVersion)) : list SecretVersion :=
  if negb (truthyBool (enabled p)) then []
  else match listing with
       | None => []
       | Some versions =>
           if (List.length versions <=? 1)%nat then []
           else versionsToDestroy p now versions
       end.

(** ** Strings *)

(** [s.includes(pat)] *)
Fixpoint includes (pat s : string) : bool :=
  String.prefix pat s ||
  match s with
  | EmptyString => false
  | String _ s' => includes pat s'
  end.

(** [s.replace(pat, by)] for a string pattern: the first occurrence only. *)
Fixpoint replace (pat by_ s : string) : string :=
  if String.prefix pat s
  then by_ ++ substring (String.length pat) (String.length s - String.length pat) s
  else match s with
       | EmptyString => EmptyString
       | String c s' => String c (replace pat by_ s')
       end.

(** ** The outside world: Secret Manager client, console, file system *)

Record Error := { message : string }.

Record Client (W : Type) := {
  getSecret : string -> W -> (Error + unit) * W;
  addSecretVersion : string -> string -> W -> (Error + SecretVersion) * W;
  createSecret : string -> string -> W -> (Error + unit) * W;
  listSecretVersions :
    string -> Z -> W -> (Error + option (list SecretVersion)) * W;
  destroySecretVersion : string -> W -> (Error + unit) * W
}.

Arguments getSecret {W}.
Arguments addSecretVersion {W}.
Arguments createSecret {W}.
Arguments listSecretVersions {W}.
Arguments destroySecretVersion {W}.

Inductive request :=
| GetSecret (secretPath : string)
| AddSecretVersion (parent payload : string)
| CreateSecret (parent secretId : string)
| ListSecretVersions (parent : string) (pageSize : Z)
| DestroySecretVersion (versionName : string).

(** A console line, kept as its template and the values spliced into it. *)
Inductive line :=
| UpdatedSecret (secretName : string) (versionName : option string)
| CreatedSecret (secretName : string) (versionName : option string)
| Uploaded (serviceName : string) (env : Environment)
| CleaningUp (count : nat) (secretName : string)
| DestroyedVersion (versionName : string)
| CouldNotDestroy (versionName msg : string)
| CouldNotCleanUp (secretName msg : string)
| CompletedCleanupAll (env : Environment)
| CompletedCleanup (serviceName : string) (env : Environment).

Inductive event :=
| Request (r : request)
| ConsoleLog (l : line)
| ConsoleWarn (l : line).


(** The destroy requests of a trace, in order, and its listing requests. *)
Definition destroyCalls (t : list event) : list string :=
  flat_map (fun e => match e with
                     | Request (DestroySecretVersion n) => [n]
                     | _ => []
                     end) t.

Definition listCalls (t : list event) : list (string * Z) :=
  flat_map (fun e => match e with
                     | Request (ListSecretVersions parent n) => [(parent, n)]
                     | _ => []
                     end) t.

Definition addCalls (t : list event) : list (string * string) :=
  flat_map (fun e => match e with
                     | Request (AddSecretVersion parent d) => [(parent, d)]
                     | _ => []
                     end) t.

(** The names the destroy loop sends for a list of versions: the loop
    skips a version whose [name] is missing or empty. *)
Definition destroyTargets (l : list SecretVersion) : list string :=
  flat_map (fun v => if truthyStr (name v)
                     then match name v with Some n => [n] | None => [] end
                     else []) l.

(** ** A monad for async methods: world, trace and thrown errors

    A computation takes the world and the trace so far and gives back
    either the thrown error or the returned value, with the world and
    the trace it leaves behind; what happened before a throw stays. *)

Module Async.

Definition M (W A : Type) : Type := W * list event -> (Error + A) * (W * list event).

Definition ret {W A} (a : A) : M W A := fun s => (inr a, s).

Definition throw {W A} (e : Error) : M W A := fun s => (inl e, s).

Definition bind {W A B} (m : M W A) (k : A -> M W B) : M W B :=
  fun s =>
    match m s with
    | (inl e, s') => (inl e, s')
    | (inr a, s') => k a s'
    end.

(** [try { m } catch (error) { h error }] *)
Definition tryCatch {W A} (m : M W A) (h : Error -> M W A) : M W A :=
  fun s =>
    match m s with
    | (inl e, s') => h e s'
    | (inr a, s') => (inr a, s')
    end.

(** [await this.client.<method>(...)] *)
Definition call {W A} (r : request) (op : W -> (Error + A) * W) : M W A :=
  fun s =>
    let (res, w') := op (fst s) in
    (res, (w', snd s ++ [Request r])).

Definition consoleLog {W} (l : line) : M W unit :=
  fun s => (inr tt, (fst s, snd s ++ [ConsoleLog l])).

Definition consoleWarn {W} (l : line) : M W unit :=
  fun s => (inr tt, (fst s, snd s ++ [ConsoleWarn l])).

(** [for (const x of l) { await body(x) }] *)
Fixpoint forOf {W A} (l : list A) (body : A -> M W unit) : M W unit :=
  match l with
  | [] => ret tt
  | x :: l' => bind (body x) (fun _ => forOf l' body)
  end.

End Async.

Import Async.

Notation "x <- m ;; k" := (bind m (fun x => k))
  (at level 61, m at next level, right associativity).
Notation "m ;; k" := (bind m (fun _ => k))
  (at level 61, right associativity).

(** ** GcpMonorepoSecretManager *)

Record Manager := {
  environment : Environment;
  configManager : SecretsConfig
}.

Section SecretManager.

Context {W : Type}.
Variable client : Client W.
(** The files on disk: path to content. *)
Variable files : string -> option string.
(** What [new Date()] yields during the run. *)
Variable now : Date.
Variable this : Manager.

(** Set by the constructor from [configManager.getProjectId]. *)
Definition projectId : string :=
  projectIds (configManager this) (environment this).

(** [ConfigManager.getServiceByName] and [getServiceNames] *)
Definition getServiceByName (n : string) : option ServiceConfig :=
  find (fun service => (svc_name service =? n)%string)
       (services (configManager this)).

Definition getServiceNames : list string :=
  map svc_name (services (configManager this)).

Definition serviceNotFound (serviceName : string) : Error :=
  {| message := "Service '" ++ serviceName ++ "' not found in configuration" |}.

Definition getEnvPath (serviceName : string) : M W string :=
  match getServiceByName serviceName with
  | None => throw (serviceNotFound serviceName)
  | Some service =>
      let envSuffix :=
        match environment this with staging => "stg" | production => "prod" end in
      ret (replace "{env}" envSuffix (envPath service))
  end.

Definition getSecretName (serviceName : string) : M W string :=
  match getServiceByName serviceName with
  | None => throw (serviceNotFound serviceName)
  | Some service => ret (secretPrefix service ++ "_ENV_FILE")%string
  end.

Definition secretPathOf (secretName : string) : string :=
  "projects/" ++ projectId ++ "/secrets/" ++ secretName.

(** What the client answers to the listing request of a cleanup. *)
Definition listingAnswer (secretName : string) (w : W)
  : Error + option (list SecretVersion) :=
  fst (listSecretVersions client (secretPathOf secretName) 100 w).

(** The versions that answer carries, none when the request failed. *)
Definition listedVersions (answer : Error + option (list SecretVersion))
  : list SecretVersion :=
  match answer with
  | inr (Some versions) => versions
  | _ => []
  end.

(** The body of the destroy loop. *)
Definition destroyOne (version : SecretVersion) : M W unit :=
  if truthyStr (name version)
  then match name version with
       | Some n =>
           tryCatch
             (call (DestroySecretVersion n) (destroySecretVersion client n) ;;
              consoleLog (DestroyedVersion n))
             (fun error => consoleWarn (CouldNotDestroy n (message error)))
       | None => ret tt
       end
  else ret tt.

Definition cleanupSecretVersions (secretName : string) : M W unit :=
  let deletePolicy := getDeletePolicy (configManager this) in
  if negb (truthyBool (enabled deletePolicy)) then ret tt
  else
    let secretPath := secretPathOf secretName in
    tryCatch
      (versions <- call (ListSecretVersions secretPath 100)
                        (listSecretVersions client secretPath 100) ;;
       match versions with
       | None => ret tt
       | Some versions =>
           if (List.length versions <=? 1)%nat then ret tt
           else
             let versionsToDestroy := versionsToDestroy deletePolicy now versions in
             if (0 <? List.length versionsToDestroy)%nat
             then consoleLog (CleaningUp (List.length versionsToDestroy) secretName) ;;
                  forOf versionsToDestroy destroyOne
             else ret tt
       end)
      (fun error => consoleWarn (CouldNotCleanUp secretName (message error))).

Definition cleanupVersions (serviceName : string) : M W unit :=
  if (serviceName =? "all")%string
  then
    forOf getServiceNames
      (fun service =>
         secretName <- getSecretName service ;;
         cleanupSecretVersions secretName) ;;
    consoleLog (CompletedCleanupAll (environment this))
  else
    secretName <- getSecretName serviceName ;;
    cleanupSecretVersions secretName ;;
    consoleLog (CompletedCleanup serviceName (environment this)).

Definition uploadSingleEnv (serviceName : string) : M W unit :=
  envPath <- getEnvPath serviceName ;;
  match files envPath with
  | None => throw {| message := "Environment file not found at " ++ envPath |}
  | Some envContent =>
      secretName <- getSecretName serviceName ;;
      let secretPath := secretPathOf secretName in
      tryCatch
        (call (GetSecret secretPath) (getSecret client secretPath) ;;
         version <- call (AddSecretVersion secretPath envContent)
                         (addSecretVersion client secretPath envContent) ;;
         consoleLog (UpdatedSecret secretName (name version)) ;;
         cleanupSecretVersions secretName)
        (fun error =>
           if includes "NOT_FOUND" (message error)
           then
             call (CreateSecret ("projects/" ++ projectId) secretName)
                  (createSecret client ("projects/" ++ projectId) secretName) ;;
             version <- call (AddSecretVersion secretPath envContent)
                             (addSecretVersion client secretPath envContent) ;;
             consoleLog (CreatedSecret secretName (name version))
           else throw error) ;;
      consoleLog (Uploaded serviceName (environment this))
  end.

Definition uploadEnv (serviceName : string) : M W unit :=
  if (serviceName =? "all")%string
  then forOf getServiceNames uploadSingleEnv
  else uploadSingleEnv serviceName.

End SecretManager.

(** ** Sample data for the worked examples *)

Module Sample.

Definition app : ServiceConfig :=
  {| svc_name := "app";
     envPath := ".environments/.env.{env}.app";
     targetPath := "apps/app/.env";
     secretPrefix := "APP" |}.

Definition config (p : option DeletePolicy) : SecretsConfig :=
  {| services := [app];
     projectIds := fun e => match e with
                            | staging => "demo-stg"
                            | production => "demo-prod"
                            end;
     deletePolicy := p |}.

Definition manager (p : option DeletePolicy) : Manager :=
  {| environment := staging; configManager := config p |}.

Definition policy (count age : Z) : DeletePolicy :=
  {| maxVersions := Some count; maxAgeDays := Some age; enabled := Some true |}.

Definition files (path : string) : option string :=
  if (path =? ".environments/.env.stg.app")%string
  then Some "API_KEY=abc"
  else None.

Definition versionName (i : nat) : string :=
  ("projects/demo-stg/secrets/APP_ENV_FILE/versions/"
   ++ NilEmpty.string_of_uint (Nat.to_uint i))%string.

Definition version (i : nat) (secs : Z) (st : string) : SecretVersion :=
  {| name := Some (versionName i);
     createTime := Some {| seconds := Some secs |};
     state := Some st |}.

(** A version whose [createTime] carries no [seconds]. *)
Definition undated (i : nat) (st : string) : SecretVersion :=
  {| name := Some (versionName i);
     createTime := Some {| seconds := None |};
     state := Some st |}.

Definition t0 : Z := 1700000000.
Definition day : Z := 86400.

(** [n] enabled versions created one day apart, the oldest first:
    version [i] (from 1) is created at [t0 + (i - 1)] days. *)
Definition daily (n : nat) : list SecretVersion :=
  map (fun i => version (S i) (t0 + Z.of_nat i * day) "ENABLED") (seq 0 n).

(** The date [d] days after [t0], in UTC. *)
Definition atDay (d : Z) : Date := utc ((t0 + d * day) * 1000).

Definition denied : Error :=
  {| message := "7 PERMISSION_DENIED: Access denied" |}.

(** A store that answers every listing with [listing], refuses to destroy
    the names in [failing], and knows the secret or not. *)
Definition store (secretExists : bool)
  (listing : Error + option (list SecretVersion)) (failing : list string)
  : Client unit :=
  {| getSecret := fun _ w =>
       (if secretExists then inr tt
        else inl {| message := "5 NOT_FOUND: Secret not found" |}, w);
     addSecretVersion := fun parent _ w =>
       (inr {| name := Some (parent ++ "/versions/1")%string;
               createTime := Some {| seconds := Some t0 |};
               state := Some "ENABLED" |}, w);
     createSecret := fun _ _ w => (inr tt, w);
     listSecretVersions := fun _ _ w => (listing, w);
     destroySecretVersion := fun n w =>
       (if existsb (String.eqb n) failing
        then inl {| message := "8 RESOURCE_EXHAUSTED: quota exceeded" |}
        else inr tt, w) |}.

End Sample.

(** ** Further readings of a run *)

(** All the requests of a trace, in order. *)
Definition requestsOf (t : list event) : list request :=
  flat_map (fun e => match e with Request r => [r] | _ => [] end) t.

(** [getSecretName] for a service found in the configuration. *)
Definition secretNameOfService (service : ServiceConfig) : string :=
  (secretPrefix service ++ "_ENV_FILE")%string.

(** The secret names that a run over [getServiceNames] resolves, one per
    configured name, each through [getServiceByName]. *)
Definition resolvedSecrets (this : Manager) (names : list string) : list string :=
  flat_map (fun n => match getServiceByName this n with
                     | Some service => [secretNameOfService service]
                     | None => []
                     end) names.


(** ** A configuration with two services, for the worked examples *)

Module Demo.

Definition api : ServiceConfig :=
  {| svc_name := "api";
     envPath := ".environments/.api.{env}.env";
     targetPath := "services/api/.env";
     secretPrefix := "api-env-vars" |}.

Definition web : ServiceConfig :=
  {| svc_name := "web";
     envPath := ".environments/.web.{env}.env";
     targetPath := "services/web/.env";
     secretPrefix := "web-env-vars" |}.

Definition manager (env : Environment) (p : option DeletePolicy) : Manager :=
  {| environment := env;
     configManager :=
       {| services := [api; web];
          projectIds := fun e => match e with
                                 | staging => "demo-stg"
                                 | production => "demo-prod"
                                 end;
          deletePolicy := p |} |}.

(** The local files: only the staging file of [api] is there. *)
Definition files (path : string) : option string :=
  if (path =? ".environments/.api.stg.env")%string
  then Some "PORT=8080"
  else None.

Definition unavailable : Error := {| message := "14 UNAVAILABLE: try again" |}.

Definition notFound : Error := {| message := "5 NOT_FOUND: Secret not found" |}.

(** A store that refuses to list the secrets in [refused] and answers
    [listing] for the others; it answers [get] to [getSecret], [add] to
    [addSecretVersion] and [create] to [createSecret]. *)
Definition store (refused : list string) (listing : list SecretVersion)
  (get : Error + unit) (add : Error + SecretVersion) (create : Error + unit)
  : Client unit :=
  {| getSecret := fun _ w => (get, w);
     addSecretVersion := fun _ _ w => (add, w);
     createSecret := fun _ _ w => (create, w);
     listSecretVersions := fun parent _ w =>
       (if existsb (String.eqb parent) refused
        then inl unavailable
        else inr (Some listing), w);
     destroySecretVersion := fun _ w => (inr tt, w) |}.

Definition added : SecretVersion :=
  {| name := Some "projects/demo-stg/secrets/api-env-vars_ENV_FILE/versions/9";
     createTime := Some {| seconds := Some 1700000000 |};
     state := Some "ENABLED" |}.

End Demo.


(** ** Download, set and peek: the latest version and the local disk

    These methods ask for the payload of [versions/latest] and write it
    to disk. The client call and the [fs] calls are answered by an
    arbitrary state machine; [fs.existsSync] only reads the world. The
    payload bytes and the text decoded from them are one string.
    [path.dirname] comes with the platform and is a parameter. *)

Record Payload := { data : option string }.

Record AccessSecretVersionResponse := { payload : option Payload }.

Record Latest (W : Type) := {
  accessSecretVersion :
    string -> W -> (Error + AccessSecretVersionResponse) * W;
  existsSync : string -> W -> bool;
  mkdirSync : string -> W -> (Error + unit) * W;
  writeFileSync : string -> string -> W -> (Error + unit) * W
}.

Arguments accessSecretVersion {W}.
Arguments existsSync {W}.
Arguments mkdirSync {W}.
Arguments writeFileSync {W}.

Inductive syncRequest :=
| AccessSecretVersion (versionPath : string)
| MkdirRecursive (dir : string)
| WriteFile (path content : string).

Inductive syncLine :=
| Downloaded (envPath : string) (env : Environment)
| CouldNotDownload (msg : string)
| SetIn (targetPath : string) (env : Environment)
| CouldNotSet (msg : string)
| PeekHeader (serviceName : string) (env : Environment)
| PeekContent (envContent : string)
| PeekNoFile (serviceName : string) (env : Environment)
| PeekError (msg : string)
| PeekBlank.

Inductive syncEvent :=
| Did (r : syncRequest)
| Out (l : syncLine)
| Err (l : syncLine).

(** The disk writes of a trace and its requests to the store. *)
Definition writesOf (t : list syncEvent) : list (string * string) :=
  flat_map (fun e => match e with
                     | Did (WriteFile path content) => [(path, content)]
                     | _ => []
                     end) t.

Definition diskChanges (t : list syncEvent) : list syncRequest :=
  flat_map (fun e => match e with
                     | Did (AccessSecretVersion _) => []
                     | Did r => [r]
                     | _ => []
                     end) t.

Definition accessesOf (t : list syncEvent) : list string :=
  flat_map (fun e => match e with
                     | Did (AccessSecretVersion n) => [n]
                     | _ => []
                     end) t.

Module Sync.

Definition M (W A : Type) : Type :=
  W * list syncEvent -> (Error + A) * (W * list syncEvent).

Definition ret {W A} (a : A) : M W A := fun s => (inr a, s).

Definition throw {W A} (e : Error) : M W A := fun s => (inl e, s).

(** The outcome of a getter that has no effect. *)
Definition lift {W A} (r : Error + A) : M W A := fun s => (r, s).

Definition bind {W A B} (m : M W A) (k : A -> M W B) : M W B :=
  fun s =>
    match m s with
    | (inl e, s') => (inl e, s')
    | (inr a, s') => k a s'
    end.

Definition tryCatch {W A} (m : M W A) (h : Error -> M W A) : M W A :=
  fun s =>
    match m s with
    | (inl e, s') => h e s'
    | (inr a, s') => (inr a, s')
    end.

Definition perform {W A} (r : syncRequest) (op : W -> (Error + A) * W) : M W A :=
  fun s =>
    let (res, w') := op (fst s) in
    (res, (w', snd s ++ [Did r])).

Definition look {W A} (f : W -> A) : M W A := fun s => (inr (f (fst s)), s).

Definition consoleLog {W} (l : syncLine) : M W unit :=
  fun s => (inr tt, (fst s, snd s ++ [Out l])).

Definition consoleError {W} (l : syncLine) : M W unit :=
  fun s => (inr tt, (fst s, snd s ++ [Err l])).

Fixpoint forOf {W A} (l : list A) (body : A -> M W unit) : M W unit :=
  match l with
  | [] => ret tt
  | x :: l' => bind (body x) (fun _ => forOf l' body)
  end.

End Sync.

Notation "'let!' x ':=' m 'in' k" := (Sync.bind m (fun x => k))
  (at level 61, x name, m at next level, right associativity).

Section LatestVersion.

Context {W : Type}.
Variable reader : Latest W.
Variable dirname : string -> string.
Variable this : Manager.

(** The getters have no effect: what they return or throw. *)
Definition envPathOf (serviceName : string) : Error + string :=
  fst (getEnvPath (W := unit) this serviceName (tt, [])).

Definition secretNameOf (serviceName : string) : Error + string :=
  fst (getSecretName (W := unit) this serviceName (tt, [])).

Definition getTargetPath (serviceName : string) : Error + string :=
  match getServiceByName this serviceName with
  | None => inl (serviceNotFound serviceName)
  | Some service => inr (targetPath service)
  end.

Definition latestOf (secretName : string) : string :=
  (secretPathOf this secretName ++ "/versions/latest")%string.

Definition noData (secretName : string) : Error :=
  {| message := "No data found for secret " ++ secretName |}.

(** [version.payload.data] when [version.payload] and it are there; the
    data is a Buffer, which counts as present also when it is empty. *)
Definition payloadData (version : AccessSecretVersionResponse) : option string :=
  match payload version with
  | Some p => data p
  | None => None
  end.

(** Make sure the directory is there, then write the file. *)
Definition writeUnder (path envContent : string) : Sync.M W unit :=
  let! there := Sync.look (existsSync reader (dirname path)) in
  let! _ := (if negb there
      then Sync.perform (MkdirRecursive (dirname path))
                        (mkdirSync reader (dirname path))
      else Sync.ret tt) in
  Sync.perform (WriteFile path envContent) (writeFileSync reader path envContent).

Definition downloadSingleEnv (serviceName : string) : Sync.M W unit :=
  let! envPath := Sync.lift (envPathOf serviceName) in
  let! secretName := Sync.lift (secretNameOf serviceName) in
  Sync.tryCatch
    (let! version := Sync.perform (AccessSecretVersion (latestOf secretName))
                     (accessSecretVersion reader (latestOf secretName)) in
     match payloadData version with
     | None => Sync.throw (noData secretName)
     | Some envContent =>
         let! _ := writeUnder envPath envContent in
         Sync.consoleLog (Downloaded envPath (environment this))
     end)
    (fun error =>
       let! _ := Sync.consoleError (CouldNotDownload (message error)) in
       Sync.throw error).

Definition downloadEnv (serviceName : string) : Sync.M W unit :=
  if (serviceName =? "all")%string
  then Sync.forOf (getServiceNames this) downloadSingleEnv
  else downloadSingleEnv serviceName.

Definition setSingleEnv (serviceName : string) : Sync.M W unit :=
  let! secretName := Sync.lift (secretNameOf serviceName) in
  let! targetPath := Sync.lift (getTargetPath serviceName) in
  Sync.tryCatch
    (let! version := Sync.perform (AccessSecretVersion (latestOf secretName))
                     (accessSecretVersion reader (latestOf secretName)) in
     match payloadData version with
     | None => Sync.throw (noData secretName)
     | Some envContent =>
         let! _ := writeUnder targetPath envContent in
         Sync.consoleLog (SetIn targetPath (environment this))
     end)
    (fun error =>
       let! _ := Sync.consoleError (CouldNotSet (message error)) in
       Sync.throw error).

Definition setEnv (serviceName : string) : Sync.M W unit :=
  if (serviceName =? "all")%string
  then Sync.forOf (getServiceNames this) setSingleEnv
  else setSingleEnv serviceName.

Definition peekSingleEnv (serviceName : string) : Sync.M W unit :=
  let! secretName := Sync.lift (secretNameOf serviceName) in
  let! _ := Sync.consoleLog (PeekHeader serviceName (environment this)) in
  let! _ := Sync.tryCatch
       (let! version := Sync.perform (AccessSecretVersion (latestOf secretName))
                        (accessSecretVersion reader (latestOf secretName)) in
        match payloadData version with
        | None => Sync.throw (noData secretName)
        | Some envContent => Sync.consoleLog (PeekContent envContent)
        end)
       (fun error =>
          if includes "NOT_FOUND" (message error)
          then Sync.consoleLog (PeekNoFile serviceName (environment this))
          else Sync.consoleError (PeekError (message error))) in
  Sync.consoleLog PeekBlank.

Definition peekEnv (serviceName : string) : Sync.M W unit :=
  if (serviceName =? "all")%string
  then Sync.forOf (getServiceNames this) peekSingleEnv
  else peekSingleEnv serviceName.

End LatestVersion.


(** Why a download or a set gives up after asking for the latest
    version: the request failed, or the answer carries no data. *)
Definition accessFailure (secretName : string)
  (answer : Error + AccessSecretVersionResponse) : option Error :=
  match answer with
  | inl e => Some e
  | inr version =>
      match payloadData version with
      | None => Some (noData secretName)
      | Some _ => None
      end
  end.

(** ** A disk for the worked examples *)

Module Disk.

(** The text before the last "/" of a path, if it has one. *)
Fixpoint beforeLastSlash (path : string) : option string :=
  match path with
  | EmptyString => None
  | String c rest =>
      match beforeLastSlash rest with
      | Some dir => Some (String c dir)
      | None => if (String c "" =? "/")%string then Some ""%string else None
      end
  end.

Definition dirname (path : string) : string :=
  match beforeLastSlash path with
  | Some dir => dir
  | None => "."
  end.

(** The world is the list of the directories that exist. Every access
    is answered with [answer] and every write with [written]. *)
Definition reader (answer : Error + AccessSecretVersionResponse)
  (written : Error + unit) : Latest (list string) :=
  {| accessSecretVersion := fun _ w => (answer, w);
     existsSync := fun path w => existsb (String.eqb path) w;
     mkdirSync := fun dir w => (inr tt, dir :: w);
     writeFileSync := fun _ _ w => (written, w) |}.

Definition holding (envContent : string) : Error + AccessSecretVersionResponse :=
  inr {| payload := Some {| data := Some envContent |} |}.

End Disk.


(** ** The download case of handleOperation (cli.ts), once the manager
    is constructed: download, then set when [--set] was given. *)
Definition handleDownload {W : Type} (reader : Latest W)
  (dirname : string -> string) (this : Manager)
  (serviceName : string) (shouldSetEnv : bool) : Sync.M W unit :=
  let! _ := downloadEnv reader dirname this serviceName in
  if shouldSetEnv then setEnv reader dirname this serviceName else Sync.ret tt.


(** ** ConfigManager: validation of the parsed configuration

    [JSON.parse] hands back an arbitrary JSON value, whatever the
    TypeScript types say. A number is an integer, or else one of which
    the validation can only tell the sign (a fraction, an overflow to
    an infinity). An object is the list of its own properties, each key
    once. Reading one of the keys the validation asks for gives
    [undefined] on anything that is not an object holding it, and
    throws a TypeError on [null]. *)

Inductive JsNumber :=
| JInt (z : Z)
| JNonInt (negative : bool).

#[warnings="-register-all"]
Inductive JsValue :=
| JUndefined
| JNull
| JBool (b : bool)
| JNum (n : JsNumber)
| JStr (s : string)
| JArr (items : list JsValue)
| JObj (fields : list (string * JsValue)).

Definition truthy (v : JsValue) : bool :=
  match v with
  | JUndefined | JNull => false
  | JBool b => b
  | JNum (JInt z) => negb (z =? 0)
  | JNum (JNonInt _) => true
  | JStr s => negb (s =? "")%string
  | JArr _ | JObj _ => true
  end.

Definition nullish (v : JsValue) : bool :=
  match v with
  | JUndefined | JNull => true
  | _ => false
  end.

(** [v.key], for [v] neither [null] nor [undefined]. *)
Definition prop (v : JsValue) (key : string) : JsValue :=
  match v with
  | JObj fields =>
      match find (fun kv => (fst kv =? key)%string) fields with
      | Some kv => snd kv
      | None => JUndefined
      end
  | _ => JUndefined
  end.

Inductive Verdict :=
| Accepted
| Rejected (reason : string)
| TypeErrorThrown.

Definition isUndefined (v : JsValue) : bool :=
  match v with JUndefined => true | _ => false end.

(** [Number.isInteger(v)], [typeof v === 'boolean'], [Array.isArray(v)] *)
Definition isInteger (v : JsValue) : bool :=
  match v with JNum (JInt _) => true | _ => false end.

Definition isBoolean (v : JsValue) : bool :=
  match v with JBool _ => true | _ => false end.

Definition isArray (v : JsValue) : bool :=
  match v with JArr _ => true | _ => false end.

Section Validation.

(** The outcome of [v < 0] for a [v] that is not a number, after the
    conversions of the language: left open. *)
Variable coerced : JsValue -> bool.

Definition lessThanZero (v : JsValue) : bool :=
  match v with
  | JNum (JInt z) => z <? 0
  | JNum (JNonInt negative) => negative
  | _ => coerced v
  end.

(** [x !== undefined && (x < 0 || !Number.isInteger(x))] *)
Definition badLimit (x : JsValue) : bool :=
  negb (isUndefined x) && (lessThanZero x || negb (isInteger x)).

Definition validateDeletePolicy (policy : JsValue) : Verdict :=
  if badLimit (prop policy "maxVersions")
  then Rejected "deletePolicy.maxVersions must be a non-negative integer"
  else if badLimit (prop policy "maxAgeDays")
  then Rejected "deletePolicy.maxAgeDays must be a non-negative integer"
  else if negb (isUndefined (prop policy "enabled"))
          && negb (isBoolean (prop policy "enabled"))
  then Rejected "deletePolicy.enabled must be a boolean"
  else Accepted.

(** [!service.name || !service.envPath || !service.targetPath ||
     !service.secretPrefix] *)
Definition incomplete (service : JsValue) : bool :=
  negb (truthy (prop service "name"))
  || negb (truthy (prop service "envPath"))
  || negb (truthy (prop service "targetPath"))
  || negb (truthy (prop service "secretPrefix")).

Definition missingFields (index : nat) : string :=
  ("Service at index " ++ NilEmpty.string_of_uint (Nat.to_uint index)
   ++ " is missing required fields: name, envPath, targetPath, secretPrefix")%string.

(** The [forEach] over the services, from [index] on. *)
Fixpoint validateServices (items : list JsValue) (index : nat) : Verdict :=
  match items with
  | [] => Accepted
  | service :: rest =>
      if nullish service then TypeErrorThrown
      else if incomplete service then Rejected (missingFields index)
      else validateServices rest (S index)
  end.

(** [!x || !x.staging || !x.production] *)
Definition lacksBoth (x : JsValue) : bool :=
  negb (truthy x)
  || negb (truthy (prop x "staging"))
  || negb (truthy (prop x "production")).

Definition validateConfig (config : JsValue) : Verdict :=
  if nullish config then TypeErrorThrown
  else
    let serviceAccountPaths := prop config "serviceAccountPaths" in
    let services := prop config "services" in
    let projectIds := prop config "projectIds" in
    let deletePolicy := prop config "deletePolicy" in
    if lacksBoth serviceAccountPaths
    then Rejected
           "Configuration must include serviceAccountPaths for both staging and production"
    else if lacksBoth projectIds
    then Rejected
           "Configuration must include projectIds for both staging and production"
    else if truthy services && negb (isArray services)
    then Rejected "Services must be an array if provided"
    else
      match match services with
            | JArr items => validateServices items 0
            | _ => Accepted
            end with
      | Accepted =>
          if truthy deletePolicy then validateDeletePolicy deletePolicy
          else Accepted
      | verdict => verdict
      end.

End Validation.

(** ** A parsed configuration for the worked examples *)

Module Parsed.

Definition both (stg prod : string) : JsValue :=
  JObj [("staging", JStr stg); ("production", JStr prod)].

Definition service (n prefix : string) : JsValue :=
  JObj [("name", JStr n);
        ("envPath", JStr (".environments/." ++ n ++ ".{env}.env"));
        ("targetPath", JStr ("services/" ++ n ++ "/.env"));
        ("secretPrefix", JStr prefix)].

Definition config (services : list JsValue) (policy : JsValue) : JsValue :=
  JObj [("serviceAccountPaths", both "sa/stg.json" "sa/prod.json");
        ("projectIds", both "demo-stg" "demo-prod");
        ("services", JArr services);
        ("deletePolicy", policy)].

Definition policy (count age : JsValue) : JsValue :=
  JObj [("maxVersions", count); ("maxAgeDays", age); ("enabled", JBool true)].

(** A comparison that calls every non-number less than zero. *)
Definition pessimist (v : JsValue) : bool := true.

End Parsed.


(** ** cli.ts: what main decides from the command line

    [main] either prints the help, starts one of the configuration
    commands, exits with status 1 after an error line, or hands an
    operation to [handleOperation]. [String.prototype.toLowerCase] and
    the reading of the configuration ([new ConfigManager(configPath)]
    followed by [getServiceNames()]) are parameters. *)

Inductive operation := Upload | Download | Peek | Cleanup.

Inductive refusal :=
| SetOnlyWithDownload
| ServiceRequired
| EnvironmentRequired
| BothEnvironments
| ServiceNotFound (serviceName : string) (available : list string)
| ConfigurationError (msg : string)
| InvalidFlag.

Inductive Plan :=
| ShowHelp
| Initialize
| ListServices (configPath : option string)
| AddService (configPath : option string)
| RemoveService (configPath : option string)
| Exit1 (why : refusal)
| Operate (op : operation) (serviceName : string) (env : Environment)
          (shouldSetEnv overrideSa : bool) (configPath : option string).

(** [args.includes(a)] *)
Definition hasArg (args : list string) (a : string) : bool :=
  existsb (String.eqb a) args.

(** [args.findIndex(p)], [None] standing for -1. *)
Fixpoint findIndex (p : string -> bool) (args : list string) : option nat :=
  match args with
  | [] => None
  | a :: rest =>
      if p a then Some 0%nat
      else match findIndex p rest with
           | Some i => Some (S i)
           | None => None
           end
  end.

(** [args[index + 1]] when [index] is not -1 and that argument is a
    non-empty string. *)
Definition argAfter (args : list string) (index : option nat) : option string :=
  match index with
  | None => None
  | Some i =>
      match nth_error args (S i) with
      | Some a => if (a =? "")%string then None else Some a
      | None => None
      end
  end.

Definition configPathOf (args : list string) : option string :=
  argAfter args (findIndex (fun arg => (arg =? "--config")%string) args).

Section CommandLine.

Variable toLowerCase : string -> string.
Variable serviceNames : option string -> Error + list string.

Definition operationOf (flag : string) : option operation :=
  if (flag =? "--upload")%string || (flag =? "-u")%string then Some Upload
  else if (flag =? "--download")%string || (flag =? "-d")%string then Some Download
  else if (flag =? "--peek")%string || (flag =? "-p")%string then Some Peek
  else if (flag =? "--cleanup")%string || (flag =? "-c")%string then Some Cleanup
  else None.

Definition main (args : list string) : Plan :=
  if (List.length args =? 0)%nat || hasArg args "--help" || hasArg args "-h"
  then ShowHelp
  else if hasArg args "--init" then Initialize
  else if hasArg args "--list" then ListServices (configPathOf args)
  else if hasArg args "--add-service" then AddService (configPathOf args)
  else if hasArg args "--remove-service" then RemoveService (configPathOf args)
  else
    let serviceIndex :=
      findIndex (fun arg => (arg =? "--service")%string || (arg =? "-s")%string)
                args in
    let overrideSa := hasArg args "--override-sa" in
    let isStaging := hasArg args "--stg" in
    let isProduction := hasArg args "--prod" in
    let shouldSetEnv := hasArg args "--set" in
    let flag := toLowerCase (hd ""%string args) in
    let configPath := configPathOf args in
    if shouldSetEnv && negb ((flag =? "--download")%string || (flag =? "-d")%string)
    then Exit1 SetOnlyWithDownload
    else
      match argAfter args serviceIndex with
      | None => Exit1 ServiceRequired
      | Some given =>
          if negb isStaging && negb isProduction then Exit1 EnvironmentRequired
          else if isStaging && isProduction then Exit1 BothEnvironments
          else
            let serviceName := toLowerCase given in
            let environment := if isStaging then staging else production in
            let run :=
              match operationOf flag with
              | Some op =>
                  Operate op serviceName environment shouldSetEnv overrideSa
                          configPath
              | None => Exit1 InvalidFlag
              end in
            if negb (serviceName =? "all")%string
            then match serviceNames configPath with
                 | inl e => Exit1 (ConfigurationError (message e))
                 | inr availableServices =>
                     if negb (hasArg availableServices serviceName)
                     then Exit1 (ServiceNotFound serviceName availableServices)
                     else run
                 end
            else run
      end.

End CommandLine.

(** ** A lower-casing of plain ASCII text, for the worked examples *)

Module Ascii7.

Definition lowerChar (c : Ascii.ascii) : Ascii.ascii :=
  let n := Ascii.nat_of_ascii c in
  if ((65 <=? n) && (n <=? 90))%nat then Ascii.ascii_of_nat (n + 32) else c.

Fixpoint toLowerCase (s : string) : string :=
  match s with
  | EmptyString => EmptyString
  | String c rest => String (lowerChar c) (toLowerCase rest)
  end.

Definition serviceNames (names : list string) (_ : option string)
  : Error + list string := inr names.

End Ascii7.

(** * Properties of the retention decision *)

(** ** The sort *)

Lemma insertNewestFirst_perm v l :
  Permutation (insertNewestFirst v l) (v :: l).
Proof.
  induction l as [|w l IH]; simpl.
  - apply Permutation_refl.
  - destruct (timeOf w <=? timeOf v).
    + apply Permutation_refl.
    + eapply perm_trans; [apply perm_skip, IH | apply perm_swap].
Qed.

Lemma sortNewestFirst_perm l : Permutation (sortNewestFirst l) l.
Proof.
  induction l as [|v l IH]; simpl.
  - constructor.
  - eapply perm_trans; [apply insertNewestFirst_perm | now apply perm_skip].
Qed.

Lemma sortNewestFirst_length l :
  List.length (sortNewestFirst l) = List.length l.
Proof. apply Permutation_length, sortNewestFirst_perm. Qed.

Lemma sortNewestFirst_In v l : In v (sortNewestFirst l) <-> In v l.
Proof.
  split; apply Permutation_in;
    [apply sortNewestFirst_perm | apply Permutation_sym, sortNewestFirst_perm].
Qed.

Lemma insertNewestFirst_sorted v l :
  StronglySorted newerFirst l ->
  StronglySorted newerFirst (insertNewestFirst v l).
Proof.
  induction 1 as [|w l Hs IH Hw]; simpl.
  - repeat constructor.
  - destruct (timeOf w <=? timeOf v) eqn:E.
    + apply Z.leb_le in E. constructor.
      * now constructor.
      * constructor; [exact E|].
        eapply Forall_impl; [|exact Hw].
        unfold newerFirst; intros x Hx; lia.
    + apply Z.leb_gt in E. constructor; [exact IH|].
      apply (Permutation_Forall (Permutation_sym (insertNewestFirst_perm v l))).
      constructor; [unfold newerFirst; lia | exact Hw].
Qed.

Lemma sortNewestFirst_sorted l : StronglySorted newerFirst (sortNewestFirst l).
Proof.
  induction l; simpl; [constructor | now apply insertNewestFirst_sorted].
Qed.

(** Stability: the versions of any one creation time keep the order in
    which the listing had them. *)
Lemma insertNewestFirst_stable k v l :
  filter (fun x => timeOf x =? k) (insertNewestFirst v l) =
  filter (fun x => timeOf x =? k) (v :: l).
Proof.
  induction l as [|w l IH]; simpl; [reflexivity|].
  destruct (timeOf w <=? timeOf v) eqn:E; [reflexivity|].
  apply Z.leb_gt in E. simpl in *. rewrite IH.
  destruct (timeOf w =? k) eqn:Ew, (timeOf v =? k) eqn:Ev; try reflexivity.
  apply Z.eqb_eq in Ew, Ev. lia.
Qed.

Lemma sortNewestFirst_stable k l :
  filter (fun x => timeOf x =? k) (sortNewestFirst l) =
  filter (fun x => timeOf x =? k) l.
Proof.
  induction l as [|v l IH]; simpl; [reflexivity|].
  rewrite insertNewestFirst_stable. simpl. now rewrite IH.
Qed.

Lemma sortedVersions_length versions :
  List.length (sortedVersions versions) = List.length (liveSet versions).
Proof. apply sortNewestFirst_length. Qed.

Lemma sortedVersions_In v versions :
  In v (sortedVersions versions) <-> In v versions /\ isLive v = true.
Proof.
  unfold sortedVersions, liveSet.
  rewrite sortNewestFirst_In. apply filter_In.
Qed.

(** ** Marking *)

Lemma strictEq_refl a : strictEq a a = true.
Proof. destruct a; simpl; [apply String.eqb_refl | reflexivity]. Qed.

Lemma strictEq_eq a b : strictEq a b = true <-> a = b.
Proof.
  destruct a, b; simpl; split; intros H; try congruence.
  - apply String.eqb_eq in H. congruence.
  - inversion H. apply String.eqb_refl.
Qed.

Lemma alreadyMarked_spec acc v :
  alreadyMarked acc v = true <-> In (name v) (map name acc).
Proof.
  unfold alreadyMarked. rewrite existsb_exists, in_map_iff.
  split; intros [x [H1 H2]]; exists x.
  - apply strictEq_eq in H2. now split.
  - split; [exact H2|]. now apply strictEq_eq.
Qed.

Lemma pushUnmarked_cons acc v olds :
  pushUnmarked acc (v :: olds) =
  pushUnmarked (if alreadyMarked acc v then acc else acc ++ [v]) olds.
Proof. reflexivity. Qed.

Lemma pushUnmarked_app acc l1 l2 :
  pushUnmarked acc (l1 ++ l2) = pushUnmarked (pushUnmarked acc l1) l2.
Proof. unfold pushUnmarked. apply fold_left_app. Qed.

(** What is pushed comes after what was there, and comes from [olds]. *)
Lemma pushUnmarked_split acc olds :
  exists pushed,
    pushUnmarked acc olds = acc ++ pushed /\
    incl pushed olds /\
    (List.length pushed <= List.length olds)%nat.
Proof.
  revert acc. induction olds as [|v olds IH]; intros acc.
  - exists []. simpl. rewrite app_nil_r. repeat split; [apply incl_refl | lia].
  - rewrite pushUnmarked_cons. destruct (alreadyMarked acc v).
    + destruct (IH acc) as [p [E [I L]]]. exists p. repeat split.
      * exact E.
      * now apply incl_tl.
      * simpl; lia.
    + destruct (IH (acc ++ [v])) as [p [E [I L]]]. exists (v :: p).
      repeat split.
      * rewrite E, <- app_assoc. reflexivity.
      * apply incl_cons; [now left | now apply incl_tl].
      * simpl; lia.
Qed.

Lemma pushUnmarked_marked acc olds :
  (forall v, In v olds -> In (name v) (map name acc)) ->
  pushUnmarked acc olds = acc.
Proof.
  induction olds as [|v olds IH]; intros H; [reflexivity|].
  rewrite pushUnmarked_cons.
  assert (Hv : alreadyMarked acc v = true)
    by (apply alreadyMarked_spec, H; now left).
  rewrite Hv. apply IH. intros x Hx. apply H. now right.
Qed.

(** The names marked are exactly the names of [acc] and of [olds]. *)
Lemma pushUnmarked_names acc olds n :
  In n (map name (pushUnmarked acc olds)) <->
  In n (map name acc) \/ In n (map name olds).
Proof.
  revert acc. induction olds as [|v olds IH]; intros acc.
  - simpl. tauto.
  - rewrite pushUnmarked_cons, IH. simpl.
    destruct (alreadyMarked acc v) eqn:E.
    + apply alreadyMarked_spec in E. split; [tauto|].
      intros [H|[H|H]]; auto. subst n. now left.
    + rewrite map_app, in_app_iff. simpl. tauto.
Qed.

Lemma excessVersions_incl p sorted : incl (excessVersions p sorted) sorted.
Proof.
  unfold excessVersions.
  destruct (positive (maxVersions p)); [|apply incl_nil_l].
  destruct (maxVersions p); [|apply incl_nil_l].
  intros x Hx. rewrite <- (firstn_skipn (Z.to_nat z) sorted).
  apply in_or_app. now right.
Qed.

Lemma oldVersions_incl p now sorted : incl (oldVersions p now sorted) sorted.
Proof.
  unfold oldVersions.
  destruct (positive (maxAgeDays p)); [|apply incl_nil_l].
  destruct (maxAgeDays p); [|apply incl_nil_l].
  intros x Hx. apply filter_In in Hx. tauto.
Qed.

Lemma markedVersions_incl p now sorted :
  incl (markedVersions p now sorted) sorted.
Proof.
  unfold markedVersions.
  destruct (pushUnmarked_split (excessVersions p sorted) (oldVersions p now sorted))
    as [pushed [E [I _]]].
  rewrite E. apply incl_app.
  - apply excessVersions_incl.
  - eapply incl_tran; [exact I | apply oldVersions_incl].
Qed.

(** Marking never marks more entries than the sorted list has: an old
    version past the count limit is found marked, by its own name. *)
Lemma pushUnmarked_skipn_filter f m (sorted : list SecretVersion) :
  pushUnmarked (skipn m sorted) (filter f sorted) =
  pushUnmarked (skipn m sorted) (filter f (firstn m sorted)).
Proof.
  rewrite <- (firstn_skipn m sorted) at 2.
  rewrite filter_app, pushUnmarked_app.
  apply pushUnmarked_marked. intros v Hv.
  apply filter_In in Hv. destruct Hv as [Hv _].
  destruct (pushUnmarked_split (skipn m sorted) (filter f (firstn m sorted)))
    as [pushed [E _]].
  rewrite E, map_app. apply in_or_app. left. now apply in_map.
Qed.

Lemma markedVersions_length p now sorted :
  (List.length (markedVersions p now sorted) <= List.length sorted)%nat.
Proof.
  unfold markedVersions, excessVersions, oldVersions.
  assert (Hf : forall f (l : list SecretVersion),
             (List.length (filter f l) <= List.length l)%nat)
    by (intros; apply filter_length_le).
  assert (Hnil : forall olds, incl olds sorted ->
             (List.length olds <= List.length sorted)%nat ->
             (List.length (pushUnmarked [] olds) <= List.length sorted)%nat).
  { intros olds _ L. destruct (pushUnmarked_split [] olds) as [q [E [_ L']]].
    rewrite E. simpl. lia. }
  destruct (positive (maxVersions p)), (maxVersions p) as [m|];
    destruct (positive (maxAgeDays p)), (maxAgeDays p) as [d|];
    simpl; try lia; try (apply Hnil; [intros x Hx; apply filter_In in Hx; tauto | apply Hf]).
  - rewrite pushUnmarked_skipn_filter.
    destruct (pushUnmarked_split (skipn (Z.to_nat m) sorted)
                (filter (olderThan (cutoffDate now d)) (firstn (Z.to_nat m) sorted)))
      as [q [E [_ L]]].
    rewrite E, length_app.
    specialize (Hf (olderThan (cutoffDate now d)) (firstn (Z.to_nat m) sorted)).
    rewrite length_firstn in Hf. rewrite length_skipn. lia.
  - rewrite length_skipn. lia.
  - rewrite length_skipn. lia.
  - rewrite length_skipn. lia.
Qed.

Lemma In_removelast {A} (x : A) l : In x (removelast l) -> In x l.
Proof.
  induction l as [|a l IH]; simpl; [tauto|].
  destruct l; [simpl; tauto|]. intros [H|H]; [now left | right; now apply IH].
Qed.

Lemma removelast_length {A} (l : list A) :
  List.length (removelast l) = Nat.pred (List.length l).
Proof.
  induction l as [|a l IH]; [reflexivity|].
  destruct l; [reflexivity|]. simpl in *. now rewrite IH.
Qed.

Lemma keepAtLeastOne_incl sorted marked :
  incl (keepAtLeastOne sorted marked) marked.
Proof.
  unfold keepAtLeastOne. destruct (_ <=? _)%nat; [|apply incl_refl].
  intros x. apply In_removelast.
Qed.

Lemma versionsToDestroy_incl p now versions :
  incl (versionsToDestroy p now versions) (sortedVersions versions).
Proof.
  unfold versionsToDestroy.
  eapply incl_tran; [apply keepAtLeastOne_incl | apply markedVersions_incl].
Qed.

Lemma versionsToDestroy_length p now versions :
  sortedVersions versions <> [] ->
  (List.length (versionsToDestroy p now versions)
   < List.length (sortedVersions versions))%nat.
Proof.
  intros Hne. unfold versionsToDestroy, keepAtLeastOne.
  pose proof (markedVersions_length p now (sortedVersions versions)) as L.
  destruct (sortedVersions versions) as [|s sorted] eqn:Es; [congruence|].
  destruct (_ <=? _)%nat eqn:E.
  - apply Nat.leb_le in E. rewrite removelast_length. simpl in *. lia.
  - apply Nat.leb_gt in E. exact E.
Qed.

Lemma versionsToDestroy_empty_live p now versions :
  (List.length (liveSet versions) <= 1)%nat ->
  versionsToDestroy p now versions = [].
Proof.
  intros H. rewrite <- sortedVersions_length in H.
  destruct (sortedVersions versions) as [|s sorted] eqn:Es.
  - unfold versionsToDestroy. rewrite Es.
    pose proof (markedVersions_length p now []) as L.
    destruct (markedVersions p now []); [reflexivity | simpl in L; lia].
  - assert (Hne : sortedVersions versions <> []) by (rewrite Es; discriminate).
    pose proof (versionsToDestroy_length p now versions Hne) as L.
    rewrite Es in L. simpl in *.
    destruct (versionsToDestroy p now versions); [reflexivity | simpl in L; lia].
Qed.

Lemma cleanupPlan_incl p now listing versions :
  listing = Some versions ->
  incl (cleanupPlan p now listing) (sortedVersions versions).
Proof.
  intros ->. unfold cleanupPlan.
  destruct (negb _); [apply incl_nil_l|].
  destruct (_ <=? _)%nat; [apply incl_nil_l | apply versionsToDestroy_incl].
Qed.

(** * Properties of the runs *)

Lemma destroyCalls_app t1 t2 :
  destroyCalls (t1 ++ t2) = destroyCalls t1 ++ destroyCalls t2.
Proof. apply flat_map_app. Qed.

Lemma listCalls_app t1 t2 : listCalls (t1 ++ t2) = listCalls t1 ++ listCalls t2.
Proof. apply flat_map_app. Qed.

Lemma addCalls_app t1 t2 : addCalls (t1 ++ t2) = addCalls t1 ++ addCalls t2.
Proof. apply flat_map_app. Qed.


Lemma destroyTargets_In n l :
  In n (destroyTargets l) -> exists v, In v l /\ name v = Some n.
Proof.
  unfold destroyTargets. rewrite in_flat_map. intros [v [Hv Hn]].
  exists v. split; [exact Hv|].
  destruct (truthyStr (name v)); [|contradiction].
  destruct (name v); [|contradiction].
  destruct Hn as [->|[]]. reflexivity.
Qed.

Lemma destroyTargets_length l :
  (List.length (destroyTargets l) <= List.length l)%nat.
Proof.
  induction l as [|v l IH]; [simpl; lia|].
  unfold destroyTargets in *. simpl. rewrite length_app.
  destruct (truthyStr (name v)); [destruct (name v)|]; simpl; lia.
Qed.

Section Runs.

Context {W : Type}.
Variable client : Client W.
Variable files : string -> option string.
Variable now : Date.
Variable this : Manager.

(** One turn of the destroy loop returns normally whatever the client
    answers, and sends at most the one request for its version. *)
Lemma destroyOne_run version w t :
  exists w' t',
    destroyOne client version (w, t) = (inr tt, (w', t ++ t')) /\
    destroyCalls t' = destroyTargets [version] /\
    listCalls t' = [] /\ addCalls t' = [].
Proof.
  unfold destroyOne, destroyTargets. simpl.
  destruct (truthyStr (name version)).
  2:{ exists w, []. now rewrite app_nil_r. }
  destruct (name version) as [n|].
  2:{ exists w, []. now rewrite app_nil_r. }
  unfold tryCatch, bind, call, consoleLog, consoleWarn. simpl.
  destruct (destroySecretVersion client n w) as [[e|[]] w'].
  - exists w', [Request (DestroySecretVersion n);
                ConsoleWarn (CouldNotDestroy n (message e))].
    cbn [fst snd]. rewrite <- app_assoc. now simpl.
  - exists w', [Request (DestroySecretVersion n);
                ConsoleLog (DestroyedVersion n)].
    cbn [fst snd]. rewrite <- app_assoc. now simpl.
Qed.

(** The destroy loop goes through the whole list: one request per named
    version, in order, and a normal return. *)
Lemma destroyLoop_run l w t :
  exists w' t',
    forOf l (destroyOne client) (w, t) = (inr tt, (w', t ++ t')) /\
    destroyCalls t' = destroyTargets l /\
    listCalls t' = [] /\ addCalls t' = [].
Proof.
  revert w t. induction l as [|v l IH]; intros w t.
  - exists w, []. now rewrite app_nil_r.
  - destruct (destroyOne_run v w t) as [w1 [t1 [E1 [D1 [L1 A1]]]]].
    destruct (IH w1 (t ++ t1)) as [w2 [t2 [E2 [D2 [L2 A2]]]]].
    exists w2, (t1 ++ t2). cbn [forOf]. unfold bind at 1. rewrite E1.
    rewrite E2, app_assoc, destroyCalls_app, listCalls_app, addCalls_app.
    rewrite D1, D2, L1, L2, A1, A2. repeat split.
    unfold destroyTargets. simpl. now rewrite app_nil_r.
Qed.

(** The requests of one cleanup: it never throws; with the policy not
    enabled it does nothing at all; otherwise it lists once, with
    [pageSize: 100], and sends the destroy requests of its plan. *)
Lemma cleanupSecretVersions_run secretName w t :
  exists w' t',
    cleanupSecretVersions client now this secretName (w, t)
      = (inr tt, (w', t ++ t')) /\
    addCalls t' = [] /\
    (if truthyBool (enabled (getDeletePolicy (configManager this)))
     then listCalls t' = [(secretPathOf this secretName, 100)]
     else t' = []) /\
    destroyCalls t' =
      match listingAnswer client this secretName w with
      | inl _ => []
      | inr listing =>
          destroyTargets
            (cleanupPlan (getDeletePolicy (configManager this)) now listing)
      end.
Proof.
  unfold cleanupSecretVersions, cleanupPlan, listingAnswer.
  set (policy := getDeletePolicy (configManager this)).
  destruct (truthyBool (enabled policy)); simpl.
  2:{ exists w, []. rewrite app_nil_r. repeat split.
      now destruct (fst _). }
  unfold tryCatch, bind at 1, call. simpl.
  destruct (listSecretVersions client (secretPathOf this secretName) 100 w)
    as [[e|listing] w1]; simpl.
  - exists w1, [Request (ListSecretVersions (secretPathOf this secretName) 100);
                ConsoleWarn (CouldNotCleanUp secretName (message e))].
    unfold consoleWarn. simpl. rewrite <- app_assoc. now simpl.
  - destruct listing as [versions|].
    2:{ exists w1, [Request (ListSecretVersions (secretPathOf this secretName) 100)].
        now simpl. }
    destruct (List.length versions <=? 1)%nat.
    { exists w1, [Request (ListSecretVersions (secretPathOf this secretName) 100)].
      now simpl. }
    destruct (versionsToDestroy policy now versions) as [|v l] eqn:Ev.
    { exists w1, [Request (ListSecretVersions (secretPathOf this secretName) 100)].
      now simpl. }
    cbn [List.length Nat.ltb Nat.leb].
    unfold bind, consoleLog. cbn [fst snd].
    set (t0 := (t ++ [Request (ListSecretVersions (secretPathOf this secretName) 100)])
                 ++ [ConsoleLog (CleaningUp (S (List.length l)) secretName)]).
    destruct (destroyLoop_run (v :: l) w1 t0) as [w2 [t2 [E2 [D2 [L2 A2]]]]].
    rewrite E2.
    exists w2, ([Request (ListSecretVersions (secretPathOf this secretName) 100);
                 ConsoleLog (CleaningUp (S (List.length l)) secretName)] ++ t2).
    subst t0. rewrite <- !app_assoc. simpl.
    rewrite L2, D2, A2. repeat split.
Qed.

End Runs.

(** * The floor, the live set and undated versions *)

Lemma isLive_spec v :
  isLive v = true <-> state v = Some "ENABLED" \/ state v = Some "DISABLED".
Proof.
  unfold isLive. rewrite orb_true_iff, !strictEq_eq. tauto.
Qed.

Lemma option_string_dec (a b : option string) : {a = b} + {a <> b}.
Proof. decide equality. apply string_dec. Qed.

(** A plan shorter than a live set with distinct names spares a name. *)
Lemma shorter_plan_spares (live plan : list SecretVersion) :
  NoDup (map name live) ->
  (List.length plan < List.length live)%nat ->
  exists v, In v live /\ ~ In (name v) (map name plan).
Proof.
  intros Hnd Hlen.
  destruct (Forall_Exists_dec (fun v => In (name v) (map name plan))
              (fun v => in_dec option_string_dec (name v) (map name plan)) live)
    as [Hall|Hex].
  - exfalso.
    assert (Hincl : incl (map name live) (map name plan)).
    { intros n Hn. apply in_map_iff in Hn. destruct Hn as [v [<- Hv]].
      rewrite Forall_forall in Hall. now apply Hall. }
    pose proof (NoDup_incl_length Hnd Hincl) as L.
    rewrite !length_map in L. lia.
  - apply Exists_exists in Hex. exact Hex.
Qed.

Lemma cleanupPlan_cases p now versions :
  cleanupPlan p now (Some versions) = [] \/
  cleanupPlan p now (Some versions) = versionsToDestroy p now versions.
Proof.
  unfold cleanupPlan. destruct (negb _); [now left|].
  destruct (_ <=? _)%nat; [now left | now right].
Qed.

Lemma liveSet_sorted_nonempty versions :
  liveSet versions <> [] -> sortedVersions versions <> [].
Proof.
  intros H E. apply H. apply length_zero_iff_nil.
  rewrite <- sortedVersions_length, E. reflexivity.
Qed.

(** C1 - Floor invariant. For every policy, instant and listing whose
    live set (state ENABLED or DISABLED) is not empty, the versions
    selected for destruction are strictly fewer than the live versions,
    both for [versionsToDestroy] as the destroy loop reads it and for the
    whole decision with its guards; and when the live versions carry
    distinct names, some live version has a name that is not selected. *)
Theorem floor_invariant (p : DeletePolicy) (now : Date)
  (versions : list SecretVersion) :
  liveSet versions <> [] ->
  (List.length (versionsToDestroy p now versions)
   < List.length (liveSet versions))%nat /\
  (List.length (cleanupPlan p now (Some versions))
   < List.length (liveSet versions))%nat /\
  (NoDup (map name (liveSet versions)) ->
   exists v, In v (liveSet versions) /\
             ~ In (name v) (map name (versionsToDestroy p now versions))).
Proof.
  intros Hne.
  assert (L : (List.length (versionsToDestroy p now versions)
               < List.length (liveSet versions))%nat).
  { rewrite <- sortedVersions_length.
    now apply versionsToDestroy_length, liveSet_sorted_nonempty. }
  split; [exact L|]. split.
  - destruct (cleanupPlan_cases p now versions) as [E|E]; rewrite E.
    + destruct (liveSet versions); [congruence | simpl; lia].
    + exact L.
  - intros Hnd. now apply shorter_plan_spares.
Qed.

(** Three versions, all older than the one-day limit and no count limit:
    the age rule marks all three and the floor leaves two to destroy. *)
Lemma floor_invariant_witness :
  (List.length (versionsToDestroy (Sample.policy 0 1) (Sample.atDay 30)
                  (Sample.daily 3)) = 2)%nat /\
  (List.length (versionsToDestroy (Sample.policy 0 1) (Sample.atDay 30)
                  (Sample.daily 3))
   < List.length (liveSet (Sample.daily 3)))%nat.
Proof.
  split; [reflexivity|].
  apply (floor_invariant (Sample.policy 0 1) (Sample.atDay 30) (Sample.daily 3)).
  vm_compute. discriminate.
Defined.

(** C7 - Trivial live set. For every policy and every listing whose live
    set has at most one member, whatever DESTROYED or other versions the
    listing holds besides, no version is selected, and a cleanup run that
    receives this listing returns normally without any destroy request. *)
Theorem trivial_live_set_is_noop {W : Type} (client : Client W) (now : Date)
  (this : Manager) (secretName : string) (w : W) (t : list event)
  (versions : list SecretVersion) :
  listingAnswer client this secretName w = inr (Some versions) ->
  (List.length (liveSet versions) <= 1)%nat ->
  (forall p now', versionsToDestroy p now' versions = [] /\
                  cleanupPlan p now' (Some versions) = []) /\
  exists w' t',
    cleanupSecretVersions client now this secretName (w, t)
      = (inr tt, (w', t ++ t')) /\
    destroyCalls t' = [].
Proof.
  intros Hans Hlive.
  assert (Hplan : forall p now', versionsToDestroy p now' versions = [] /\
                                 cleanupPlan p now' (Some versions) = []).
  { intros p now'.
    pose proof (versionsToDestroy_empty_live p now' versions Hlive) as E.
    split; [exact E|].
    destruct (cleanupPlan_cases p now' versions) as [E'|E']; congruence. }
  split; [exact Hplan|].
  destruct (cleanupSecretVersions_run client now this secretName w t)
    as [w' [t' [E [_ [_ D]]]]].
  exists w', t'. split; [exact E|].
  rewrite D, Hans. destruct (Hplan (getDeletePolicy (configManager this)) now)
    as [_ ->]. reflexivity.
Qed.

(** One enabled version next to a destroyed and an unclassified one, all
    of them far older than the limits of the policy. *)
Lemma trivial_live_set_is_noop_witness :
  exists w' t',
    cleanupSecretVersions
      (Sample.store true
         (inr (Some [Sample.version 3 Sample.t0 "DESTROYED";
                     Sample.version 2 Sample.t0 "ENABLED";
                     Sample.version 1 Sample.t0 "STATE_UNSPECIFIED"])) [])
      (Sample.atDay 400) (Sample.manager (Some (Sample.policy 1 1)))
      "APP_ENV_FILE" (tt, [])
      = (inr tt, (w', [] ++ t')) /\
    destroyCalls t' = [].
Proof.
  apply (trivial_live_set_is_noop
           (Sample.store true
              (inr (Some [Sample.version 3 Sample.t0 "DESTROYED";
                          Sample.version 2 Sample.t0 "ENABLED";
                          Sample.version 1 Sample.t0 "STATE_UNSPECIFIED"])) [])
           (Sample.atDay 400) (Sample.manager (Some (Sample.policy 1 1)))
           "APP_ENV_FILE" tt []
           [Sample.version 3 Sample.t0 "DESTROYED";
            Sample.version 2 Sample.t0 "ENABLED";
            Sample.version 1 Sample.t0 "STATE_UNSPECIFIED"]).
  - reflexivity.
  - vm_compute. lia.
Defined.

(** C8 - Only live versions are destroyed. For every policy, instant and
    listing, each selected version has state ENABLED or DISABLED; and in
    every cleanup run, against any client, each destroy request names a
    version of the listing received whose state is ENABLED or DISABLED. *)
Theorem only_live_versions_destroyed {W : Type} (client : Client W) (now : Date)
  (this : Manager) (secretName : string) (w : W) (t : list event) :
  (forall p now' listing,
     Forall (fun v => state v = Some "ENABLED" \/ state v = Some "DISABLED")
            (cleanupPlan p now' listing)) /\
  exists w' t',
    cleanupSecretVersions client now this secretName (w, t)
      = (inr tt, (w', t ++ t')) /\
    Forall (fun n =>
              exists v,
                In v (listedVersions (listingAnswer client this secretName w)) /\
                name v = Some n /\
                (state v = Some "ENABLED" \/ state v = Some "DISABLED"))
           (destroyCalls t').
Proof.
  assert (Hplan : forall p now' versions v,
             In v (cleanupPlan p now' (Some versions)) ->
             In v versions /\ isLive v = true).
  { intros p now' versions v Hv. apply sortedVersions_In.
    eapply cleanupPlan_incl; [reflexivity | exact Hv]. }
  split.
  - intros p now' [versions|].
    + apply Forall_forall. intros v Hv. apply isLive_spec.
      now apply (Hplan p now' versions).
    + unfold cleanupPlan. destruct (negb _); constructor.
  - destruct (cleanupSecretVersions_run client now this secretName w t)
      as [w' [t' [E [_ [_ D]]]]].
    exists w', t'. split; [exact E|]. rewrite D.
    destruct (listingAnswer client this secretName w) as [e|[versions|]];
      simpl.
    + constructor.
    + apply Forall_forall. intros n Hn.
      apply destroyTargets_In in Hn. destruct Hn as [v [Hv Hname]].
      apply Hplan in Hv. exists v. repeat split; try tauto.
      apply isLive_spec; tauto.
    + unfold cleanupPlan. destruct (negb _); constructor.
Qed.

Lemma StronglySorted_middle {A} (R : A -> A -> Prop) before x after :
  StronglySorted R (before ++ x :: after) ->
  Forall (fun y => R y x) before /\ Forall (R x) after.
Proof.
  induction before as [|a before IH]; simpl; intros H.
  - inversion H; subst. now split.
  - inversion H as [|? ? Hs Ha]; subst.
    destruct (IH Hs) as [Hb Hafter]. split; [|exact Hafter].
    constructor; [|exact Hb].
    rewrite Forall_forall in Ha. apply Ha, in_elt.
Qed.

Lemma timeOf_undated v : createSeconds v = None -> timeOf v = 0.
Proof. unfold timeOf. now intros ->. Qed.

Lemma olderThan_undated cutoff v :
  createSeconds v = None -> olderThan cutoff v = false.
Proof. unfold olderThan. now intros ->. Qed.

Lemma oldVersions_dated p now sorted v :
  In v (oldVersions p now sorted) -> createSeconds v <> None.
Proof.
  unfold oldVersions.
  destruct (positive (maxAgeDays p)); [|contradiction].
  destruct (maxAgeDays p) as [d|]; [|contradiction].
  intros Hin Hnone. apply filter_In in Hin.
  rewrite (olderThan_undated _ _ Hnone) in Hin. destruct Hin; discriminate.
Qed.

(** C10 - Undated versions. A version without [createTime.seconds]
    sorts with creation time 0, the epoch: in the sorted live list
    every version before it has a time of 0 or more and every version
    after it a time of 0 or less. Under no policy and at no instant is
    it an age-based candidate, so whenever it is marked it is as
    count-based excess; and a live undated version does get selected by
    the count rule, under a policy whose age limit is positive too, as
    soon as a dated version fills the count. *)
Theorem undated_version_count_only (v : SecretVersion) :
  createSeconds v = None ->
  timeOf v = 0 /\
  (forall versions before after,
     sortedVersions versions = before ++ v :: after ->
     Forall (fun w => 0 <= timeOf w) before /\
     Forall (fun w => timeOf w <= 0) after) /\
  (forall p now sorted, ~ In v (oldVersions p now sorted)) /\
  (forall p now sorted,
     In v (markedVersions p now sorted) -> In v (excessVersions p sorted)) /\
  (isLive v = true ->
   In v (versionsToDestroy (Sample.policy 1 30) (Sample.atDay 0)
           [v; Sample.version 1 Sample.t0 "ENABLED"])).
Proof.
  intros Hnone. pose proof (timeOf_undated v Hnone) as Ht.
  split; [exact Ht|]. split; [|split; [|split]].
  - intros versions before after E.
    pose proof (sortNewestFirst_sorted (liveSet versions)) as Hs.
    fold (sortedVersions versions) in Hs. rewrite E in Hs.
    apply StronglySorted_middle in Hs. unfold newerFirst in Hs.
    rewrite Ht in Hs. exact Hs.
  - intros p now sorted Hin. now apply oldVersions_dated in Hin.
  - intros p now sorted Hin. unfold markedVersions in Hin.
    destruct (pushUnmarked_split (excessVersions p sorted)
                (oldVersions p now sorted)) as [pushed [E [I _]]].
    rewrite E in Hin. apply in_app_or in Hin. destruct Hin as [Hin|Hin].
    + exact Hin.
    + apply I, oldVersions_dated in Hin. contradiction.
  - intros Hlive.
    unfold versionsToDestroy, sortedVersions, liveSet. simpl filter.
    rewrite Hlive. simpl. rewrite Ht.
    unfold keepAtLeastOne, markedVersions, excessVersions, oldVersions.
    simpl. rewrite (olderThan_undated _ _ Hnone). simpl. now left.
Qed.

(** An enabled version listed without [seconds]. *)
Lemma undated_version_count_only_witness :
  In (Sample.undated 7 "ENABLED")
     (versionsToDestroy (Sample.policy 1 30) (Sample.atDay 0)
        [Sample.undated 7 "ENABLED"; Sample.version 1 Sample.t0 "ENABLED"])
  /\ ~ In (Sample.undated 7 "ENABLED")
          (oldVersions (Sample.policy 1 30) (Sample.atDay 0)
             (sortedVersions
                [Sample.undated 7 "ENABLED";
                 Sample.version 1 Sample.t0 "ENABLED"])).
Proof.
  pose proof (undated_version_count_only (Sample.undated 7 "ENABLED") eq_refl)
    as [_ [_ [Hold [_ Hcount]]]].
  split; [apply Hcount; reflexivity | apply Hold].
Defined.

(** * Union of the two rules and the version the floor spares *)

Lemma kept_then_excess p sorted :
  sorted = keptByCount p sorted ++ excessVersions p sorted.
Proof.
  unfold keptByCount, excessVersions.
  destruct (positive (maxVersions p)); [|now rewrite app_nil_r].
  destruct (maxVersions p); [|now rewrite app_nil_r].
  symmetry. apply firstn_skipn.
Qed.

(** Old versions past the count limit are marked already: only the old
    versions within the limit can be pushed. *)
Lemma markedVersions_kept p now sorted :
  markedVersions p now sorted =
  pushUnmarked (excessVersions p sorted)
               (oldVersions p now (keptByCount p sorted)).
Proof.
  unfold markedVersions, keptByCount, excessVersions, oldVersions.
  destruct (positive (maxVersions p)); [|reflexivity].
  destruct (maxVersions p) as [m|]; [|reflexivity].
  destruct (positive (maxAgeDays p)); [|reflexivity].
  destruct (maxAgeDays p) as [d|]; [|reflexivity].
  apply pushUnmarked_skipn_filter.
Qed.

Lemma pushUnmarked_fresh acc l :
  NoDup (map name l) ->
  (forall v, In v l -> ~ In (name v) (map name acc)) ->
  pushUnmarked acc l = acc ++ l.
Proof.
  revert acc. induction l as [|v l IH]; intros acc Hnd Hfresh.
  - simpl. now rewrite app_nil_r.
  - rewrite pushUnmarked_cons.
    destruct (alreadyMarked acc v) eqn:E.
    + apply alreadyMarked_spec in E. exfalso. apply (Hfresh v); [now left | exact E].
    + simpl in Hnd. apply NoDup_cons_iff in Hnd. destruct Hnd as [Hv Hnd].
      rewrite IH; [now rewrite <- app_assoc | exact Hnd |].
      intros x Hx Hin. rewrite map_app, in_app_iff in Hin. simpl in Hin.
      destruct Hin as [Hin|[Hin|[]]].
      * apply (Hfresh x); [now right | exact Hin].
      * apply Hv. rewrite Hin. now apply in_map.
Qed.

Lemma pushUnmarked_NoDup acc olds :
  NoDup (map name acc) -> NoDup (map name (pushUnmarked acc olds)).
Proof.
  revert acc. induction olds as [|v olds IH]; intros acc Hnd; [exact Hnd|].
  rewrite pushUnmarked_cons. apply IH.
  destruct (alreadyMarked acc v) eqn:E; [exact Hnd|].
  rewrite map_app. simpl. apply NoDup_app; [exact Hnd | repeat constructor; tauto |].
  intros n Hn [<-|[]].
  apply alreadyMarked_spec in Hn. congruence.
Qed.

Lemma NoDup_map_filter {A B} (g : A -> B) f l :
  NoDup (map g l) -> NoDup (map g (filter f l)).
Proof.
  induction l as [|a l IH]; simpl; intros H; [constructor|].
  apply NoDup_cons_iff in H. destruct H as [Ha H].
  destruct (f a); [|now apply IH].
  simpl. constructor; [|now apply IH].
  intros Hin. apply Ha. apply in_map_iff in Hin.
  destruct Hin as [x [Hx Hin]]. apply filter_In in Hin.
  rewrite <- Hx. apply in_map. tauto.
Qed.

Lemma filter_full {A} f (l : list A) :
  List.length (filter f l) = List.length l -> filter f l = l.
Proof.
  induction l as [|a l IH]; simpl; [reflexivity|].
  pose proof (filter_length_le f l) as L.
  destruct (f a); simpl; intros H.
  - f_equal. apply IH. lia.
  - lia.
Qed.

Lemma oldVersions_filter p now l :
  exists f, oldVersions p now l = filter f l.
Proof.
  unfold oldVersions.
  destruct (positive (maxAgeDays p)), (maxAgeDays p) as [d|];
    try (exists (fun _ => false); induction l; simpl; congruence).
  now exists (olderThan (cutoffDate now d)).
Qed.

Lemma sortedVersions_NoDup_names versions :
  NoDup (map name (liveSet versions)) ->
  NoDup (map name (sortedVersions versions)).
Proof.
  apply Permutation_NoDup, Permutation_map, Permutation_sym,
    sortNewestFirst_perm.
Qed.

Lemma excessVersions_NoDup_names p sorted :
  NoDup (map name sorted) -> NoDup (map name (excessVersions p sorted)).
Proof.
  intros H. rewrite (kept_then_excess p sorted), map_app in H.
  now apply NoDup_app_remove_l in H.
Qed.

(** With distinct names, a marking that reaches the size of the sorted
    list is the excess followed by everything the count rule keeps. *)
Lemma markedVersions_all p now sorted :
  NoDup (map name sorted) ->
  (List.length sorted <= List.length (markedVersions p now sorted))%nat ->
  markedVersions p now sorted = excessVersions p sorted ++ keptByCount p sorted.
Proof.
  intros Hnd Hlen.
  pose proof (kept_then_excess p sorted) as Hsplit.
  rewrite markedVersions_kept in *.
  destruct (oldVersions_filter p now (keptByCount p sorted)) as [f Hf].
  rewrite Hf in *.
  assert (Hnd' : NoDup (map name (keptByCount p sorted)
                        ++ map name (excessVersions p sorted)))
    by (rewrite <- map_app, <- Hsplit; exact Hnd).
  assert (Hfresh : pushUnmarked (excessVersions p sorted)
                     (filter f (keptByCount p sorted))
                   = excessVersions p sorted ++ filter f (keptByCount p sorted)).
  { apply pushUnmarked_fresh.
    - apply NoDup_map_filter. now apply NoDup_app_remove_r in Hnd'.
    - intros v Hv Hin. apply filter_In in Hv. destruct Hv as [Hv _].
      apply (in_map name) in Hv.
      apply in_split in Hv. destruct Hv as [l1 [l2 Hv]].
      rewrite Hv, <- app_assoc in Hnd'. simpl in Hnd'.
      apply NoDup_remove_2 in Hnd'. apply Hnd'.
      rewrite app_assoc. apply in_or_app. now right. }
  rewrite Hfresh in *. f_equal. apply filter_full.
  pose proof (filter_length_le f (keptByCount p sorted)) as L.
  rewrite length_app in Hlen.
  rewrite Hsplit in Hlen at 1. rewrite length_app in Hlen. lia.
Qed.

Lemma keptByCount_nonempty p sorted : sorted <> [] -> keptByCount p sorted <> [].
Proof.
  unfold keptByCount, positive. intros Hne.
  destruct (maxVersions p) as [m|]; simpl; [|exact Hne].
  destruct (negb (m =? 0) && (0 <? m)) eqn:E; [|exact Hne].
  apply andb_true_iff in E. destruct E as [_ E]. apply Z.ltb_lt in E.
  destruct (Z.to_nat m) as [|k] eqn:Em; [lia|].
  destruct sorted; [congruence | discriminate].
Qed.

(** The reach of the defect in the floor step. Whenever the marked
    versions reach the size of the sorted live list, the
    [splice(-1, 1)] drops the last marked one. With distinct version
    names this is the last of the versions the count rule keeps: the
    sorted live list is [front], then the spared version, then the
    count-based excess, and what gets destroyed is the excess followed
    by [front]. So the newest version is the one spared only when
    [front] is empty, that is when [maxVersions] is 1 or one version is
    live; in every other case the newest version is destroyed. *)
Theorem floor_spares_last_kept (p : DeletePolicy) (now : Date)
  (versions : list SecretVersion) :
  NoDup (map name (liveSet versions)) ->
  liveSet versions <> [] ->
  (List.length (sortedVersions versions)
   <= List.length (markedVersions p now (sortedVersions versions)))%nat ->
  exists front spared,
    sortedVersions versions
      = front ++ spared :: excessVersions p (sortedVersions versions) /\
    markedVersions p now (sortedVersions versions)
      = excessVersions p (sortedVersions versions) ++ front ++ [spared] /\
    versionsToDestroy p now versions
      = excessVersions p (sortedVersions versions) ++ front.
Proof.
  intros Hnd Hne Hlen.
  apply sortedVersions_NoDup_names in Hnd.
  apply liveSet_sorted_nonempty in Hne.
  unfold versionsToDestroy, keepAtLeastOne.
  apply Nat.leb_le in Hlen as Hleb. rewrite Hleb.
  set (sorted := sortedVersions versions) in *.
  rewrite (markedVersions_all p now sorted Hnd Hlen).
  destruct (exists_last (keptByCount_nonempty p sorted Hne))
    as [front [spared Hkept]].
  exists front, spared. rewrite Hkept. repeat split.
  - rewrite (kept_then_excess p sorted) at 1. rewrite Hkept, <- app_assoc.
    reflexivity.
  - rewrite app_assoc. apply removelast_last.
Qed.

(** Three daily versions, all past the age limit of one day, no count
    limit: the newest two are destroyed and the oldest is spared. *)
Lemma floor_spares_last_kept_witness :
  exists front spared,
    sortedVersions (Sample.daily 3)
      = front ++ spared
          :: excessVersions (Sample.policy 0 1) (sortedVersions (Sample.daily 3)) /\
    markedVersions (Sample.policy 0 1) (Sample.atDay 30)
                   (sortedVersions (Sample.daily 3))
      = excessVersions (Sample.policy 0 1) (sortedVersions (Sample.daily 3))
          ++ front ++ [spared] /\
    versionsToDestroy (Sample.policy 0 1) (Sample.atDay 30) (Sample.daily 3)
      = excessVersions (Sample.policy 0 1) (sortedVersions (Sample.daily 3))
          ++ front.
Proof.
  apply (floor_spares_last_kept (Sample.policy 0 1) (Sample.atDay 30)
           (Sample.daily 3)).
  - vm_compute.
    repeat (constructor; [simpl; intuition discriminate|]). constructor.
  - vm_compute. discriminate.
  - vm_compute. lia.
Defined.

(** C3 - A defect of the code: the floor step spares the wrong version.
    The version taken out of the destroy list to keep one alive should
    be the newest live version, the one [versions/latest] names and the
    count rule keeps. The code drops the last entry of the list in push
    order instead. With three daily versions all past the age limit and
    no count limit the correction triggers, the newest version (number
    3) is among those destroyed, and the version taken out of the
    marked list is the oldest (number 1). *)
Lemma floor_removes_oldest_not_newest :
  let sorted := sortedVersions (Sample.daily 3) in
  let marked := markedVersions (Sample.policy 0 1) (Sample.atDay 30) sorted in
  let destroyed :=
    versionsToDestroy (Sample.policy 0 1) (Sample.atDay 30) (Sample.daily 3) in
  (List.length sorted <= List.length marked)%nat /\
  hd_error sorted = Some (Sample.version 3 (Sample.t0 + 2 * Sample.day) "ENABLED") /\
  In (Sample.version 3 (Sample.t0 + 2 * Sample.day) "ENABLED") destroyed /\
  marked = destroyed ++ [Sample.version 1 Sample.t0 "ENABLED"] /\
  marked <> destroyed ++ [Sample.version 3 (Sample.t0 + 2 * Sample.day) "ENABLED"].
Proof.
  vm_compute. repeat split.
  - lia.
  - now left.
  - discriminate.
Qed.

Lemma positive_spec o : positive o = true <-> exists z, o = Some z /\ 0 < z.
Proof.
  unfold positive, truthyNum. destruct o as [z|]; simpl.
  - rewrite andb_true_iff, negb_true_iff, Z.eqb_neq, Z.ltb_lt. split.
    + intros [_ H]. now exists z.
    + intros [z' [E H]]. inversion E; subst. lia.
  - split; [discriminate | intros [z [E _]]; discriminate].
Qed.

(** The age rule on the twelve daily versions, for a cutoff that falls
    after the creation of the version eight days younger than the
    oldest but not after the next one: the versions at sorted index 4
    and beyond. *)
Lemma twelve_daily_old cutoff :
  (Sample.t0 + 7 * Sample.day) * 1000 < cutoff <= (Sample.t0 + 8 * Sample.day) * 1000 ->
  filter (olderThan cutoff) (sortedVersions (Sample.daily 12))
  = skipn 4 (sortedVersions (Sample.daily 12)).
Proof.
  intros Hc.
  assert (Hs : sortedVersions (Sample.daily 12) = rev (Sample.daily 12))
    by (vm_compute; reflexivity).
  rewrite Hs. cbv [Sample.daily seq map rev app Sample.version skipn filter].
  unfold Sample.t0, Sample.day in Hc.
  repeat match goal with
         | |- context [olderThan cutoff ?v] =>
             let b := fresh "b" in
             let E := fresh "E" in
             destruct (olderThan cutoff v) eqn:E;
             unfold olderThan, createSeconds, truthyNum in E;
             cbn in E;
             [ try (apply Z.ltb_lt in E; lia)
             | try (apply Z.ltb_ge in E; lia) ]
         end.
  reflexivity.
Qed.

(** The worked example of twelve daily versions, [maxVersions] 5 and
    [maxAgeDays] 3, for any date that holds the creation time of the
    newest and whose cutoff is not later than three times 24 hours
    before it. *)
Lemma twelve_daily_example (today : Date) :
  let twelve := Sample.daily 12 in
  let sorted := sortedVersions twelve in
  let destroyed := cleanupPlan (Sample.policy 5 3) today (Some twelve) in
  getTime today = timeOf (hd (Sample.version 0 0 "") sorted) ->
  - 86400000 < clockChange today 3 <= 0 ->
  sorted = rev twelve /\
  destroyed = skipn 5 sorted ++ firstn 1 (skipn 4 sorted) /\
  Permutation destroyed (skipn 4 sorted) /\
  survivors sorted destroyed = firstn 4 sorted.
Proof.
  intros twelve sorted destroyed Htime Hchange.
  assert (Hnewest : timeOf (hd (Sample.version 0 0 "") sorted) = 1700950400000)
    by (vm_compute; reflexivity).
  rewrite Hnewest in Htime.
  assert (Hold : filter (olderThan (cutoffDate today 3)) sorted = skipn 4 sorted).
  { apply twelve_daily_old. unfold cutoffDate, msPerDay. rewrite Htime.
    unfold Sample.t0, Sample.day. lia. }
  assert (E : destroyed
              = keepAtLeastOne sorted
                  (pushUnmarked (skipn 5 sorted)
                     (filter (olderThan (cutoffDate today 3)) sorted)))
    by reflexivity.
  rewrite Hold in E.
  assert (E' : keepAtLeastOne sorted (pushUnmarked (skipn 5 sorted) (skipn 4 sorted))
               = skipn 5 sorted ++ firstn 1 (skipn 4 sorted))
    by (vm_compute; reflexivity).
  rewrite E' in E. clear E'.
  split; [vm_compute; reflexivity|]. split; [exact E|].
  rewrite E. split.
  - rewrite <- (firstn_skipn 1 (skipn 4 sorted)) at 2.
    rewrite skipn_skipn. apply Permutation_app_comm.
  - vm_compute. reflexivity.
Qed.

(** C4 (as the code has it) - Union of the two rules. When both limits
    are positive, the names marked are exactly the names of the
    versions at sorted index [maxVersions] or more together with the
    names of the versions created before the cutoff, which is [now]
    moved back by [maxAgeDays] calendar days of the local time zone;
    each name is marked once when the live names are distinct. The
    floor applies exactly when the marking has as many entries as the
    sorted live list: the destroy list is then the marking without its
    last entry, and the marking itself otherwise. For twelve versions
    created one day apart, [maxVersions] 5 and [maxAgeDays] 3, at the
    creation time of the newest and with no clock set forward in those
    three days: the destroy list holds indices 5 to 11 and then index 4
    of the newest-first list, which is the set of indices 4 to 11, and
    the survivors are indices 0 to 3. *)
Theorem union_of_count_and_age (p : DeletePolicy) (now : Date)
  (versions : list SecretVersion) (m d : Z) :
  maxVersions p = Some m -> 0 < m ->
  maxAgeDays p = Some d -> 0 < d ->
  (forall n,
     In n (map name (markedVersions p now (sortedVersions versions))) <->
     In n (map name (skipn (Z.to_nat m) (sortedVersions versions))) \/
     In n (map name (filter (olderThan (cutoffDate now d))
                            (sortedVersions versions)))) /\
  (NoDup (map name (liveSet versions)) ->
   NoDup (map name (markedVersions p now (sortedVersions versions)))) /\
  ((List.length (sortedVersions versions)
    <= List.length (markedVersions p now (sortedVersions versions)))%nat ->
   versionsToDestroy p now versions
     = removelast (markedVersions p now (sortedVersions versions))) /\
  ((List.length (markedVersions p now (sortedVersions versions))
    < List.length (sortedVersions versions))%nat ->
   versionsToDestroy p now versions
     = markedVersions p now (sortedVersions versions)) /\
  (forall today : Date,
     let twelve := Sample.daily 12 in
     let sorted := sortedVersions twelve in
     let destroyed := cleanupPlan (Sample.policy 5 3) today (Some twelve) in
     getTime today = timeOf (hd (Sample.version 0 0 "") sorted) ->
     - 86400000 < clockChange today 3 <= 0 ->
     sorted = rev twelve /\
     destroyed = skipn 5 sorted ++ firstn 1 (skipn 4 sorted) /\
     Permutation destroyed (skipn 4 sorted) /\
     survivors sorted destroyed = firstn 4 sorted).
Proof.
  intros Hm Hmpos Hd Hdpos.
  assert (Pm : positive (maxVersions p) = true)
    by (apply positive_spec; now exists m).
  assert (Pd : positive (maxAgeDays p) = true)
    by (apply positive_spec; now exists d).
  split; [|split; [|split; [|split]]].
  - intros n. unfold markedVersions. rewrite pushUnmarked_names.
    unfold excessVersions, oldVersions.
    rewrite Pm, Pd, Hm, Hd. reflexivity.
  - intros Hnd. unfold markedVersions.
    apply pushUnmarked_NoDup, excessVersions_NoDup_names,
      sortedVersions_NoDup_names, Hnd.
  - intros L. unfold versionsToDestroy, keepAtLeastOne.
    apply Nat.leb_le in L. now rewrite L.
  - intros L. unfold versionsToDestroy, keepAtLeastOne.
    apply Nat.leb_gt in L. now rewrite L.
  - intros today. apply twelve_daily_example.
Qed.

(** The policy of the worked example, on its twelve versions, in UTC:
    eight versions are marked out of twelve, and destroyed. *)
Lemma union_of_count_and_age_witness :
  versionsToDestroy (Sample.policy 5 3) (Sample.atDay 11) (Sample.daily 12)
  = markedVersions (Sample.policy 5 3) (Sample.atDay 11)
      (sortedVersions (Sample.daily 12)).
Proof.
  apply (proj1 (proj2 (proj2 (proj2
           (union_of_count_and_age (Sample.policy 5 3) (Sample.atDay 11)
              (Sample.daily 12) 5 3 eq_refl eq_refl eq_refl eq_refl))))).
  vm_compute. lia.
Defined.

(** C4 (as stated) fails where the clocks were set forward an hour
    within the last three days: the cutoff is then an hour later than
    three times 24 hours before now, the version created exactly three
    days before the newest (sorted index 3) is older than it, and the
    destroy list holds indices 3 to 11, leaving only indices 0 to 2. *)
Lemma union_example_fails_after_clock_change :
  let twelve := Sample.daily 12 in
  let sorted := sortedVersions twelve in
  let today :=
    {| getTime := timeOf (hd (Sample.version 0 0 "") sorted);
       clockChange := fun _ => 3600000 |} in
  let destroyed := cleanupPlan (Sample.policy 5 3) today (Some twelve) in
  cutoffDate today 3 = getTime today - 3 * 86400000 + 3600000 /\
  nth_error sorted 3 = Some (Sample.version 9 (Sample.t0 + 8 * Sample.day) "ENABLED") /\
  In (Sample.version 9 (Sample.t0 + 8 * Sample.day) "ENABLED") destroyed /\
  destroyed = skipn 5 sorted ++ firstn 2 (skipn 3 sorted) /\
  destroyed <> skipn 5 sorted ++ firstn 1 (skipn 4 sorted) /\
  survivors sorted destroyed = firstn 3 sorted.
Proof.
  vm_compute. repeat split.
  - right. right. right. right. right. right. right. now left.
  - discriminate.
Qed.

(** * Failures: destroy requests, the listing, the upload *)



(** The run of that example, event by event: five requests, of which
    the second and the fourth end in a warning. *)
Example five_candidates_two_refused :
  cleanupSecretVersions
    (Sample.store true (inr (Some (Sample.daily 6)))
       [Sample.versionName 4; Sample.versionName 2])
    (Sample.atDay 5) (Sample.manager (Some (Sample.policy 1 0)))
    "APP_ENV_FILE" (tt, [])
  = (inr tt,
     (tt,
      [Request (ListSecretVersions "projects/demo-stg/secrets/APP_ENV_FILE" 100);
       ConsoleLog (CleaningUp 5 "APP_ENV_FILE");
       Request (DestroySecretVersion (Sample.versionName 5));
       ConsoleLog (DestroyedVersion (Sample.versionName 5));
       Request (DestroySecretVersion (Sample.versionName 4));
       ConsoleWarn (CouldNotDestroy (Sample.versionName 4)
                      "8 RESOURCE_EXHAUSTED: quota exceeded");
       Request (DestroySecretVersion (Sample.versionName 3));
       ConsoleLog (DestroyedVersion (Sample.versionName 3));
       Request (DestroySecretVersion (Sample.versionName 2));
       ConsoleWarn (CouldNotDestroy (Sample.versionName 2)
                      "8 RESOURCE_EXHAUSTED: quota exceeded");
       Request (DestroySecretVersion (Sample.versionName 1));
       ConsoleLog (DestroyedVersion (Sample.versionName 1))])).
Proof. vm_compute. reflexivity. Qed.

(** C2 (as the code has it) - A failed listing is logged, not raised.
    When the policy is enabled and the listing request of a manual
    cleanup of one service fails with an error, [cleanupVersions] sends
    no destroy request, writes the error's message as a warning, reports
    the cleanup as completed and returns normally. *)
Theorem listing_failure_is_logged_not_raised {W : Type} (client : Client W)
  (now : Date) (this : Manager) (serviceName : string) (service : ServiceConfig)
  (w w1 : W) (t : list event) (e : Error) :
  (serviceName =? "all")%string = false ->
  getServiceByName this serviceName = Some service ->
  truthyBool (enabled (getDeletePolicy (configManager this))) = true ->
  listSecretVersions client
    (secretPathOf this (secretPrefix service ++ "_ENV_FILE")) 100 w = (inl e, w1) ->
  exists t',
    cleanupVersions client now this serviceName (w, t) = (inr tt, (w1, t ++ t')) /\
    t' = [Request (ListSecretVersions
                     (secretPathOf this (secretPrefix service ++ "_ENV_FILE")) 100);
          ConsoleWarn (CouldNotCleanUp (secretPrefix service ++ "_ENV_FILE")
                         (message e));
          ConsoleLog (CompletedCleanup serviceName (environment this))] /\
    destroyCalls t' = [].
Proof.
  intros Hall Hsvc Hen Hlist. eexists. split; [|split; [reflexivity|reflexivity]].
  unfold cleanupVersions. rewrite Hall.
  unfold getSecretName. rewrite Hsvc.
  unfold bind at 1, ret. unfold bind at 1.
  unfold cleanupSecretVersions. rewrite Hen. cbn [negb].
  unfold tryCatch, bind at 1, call. cbn [fst snd]. rewrite Hlist.
  unfold consoleWarn, consoleLog. cbn [fst snd].
  rewrite <- !app_assoc. reflexivity.
Qed.

(** The listing of the secret of service [app] is refused. *)
Lemma listing_failure_is_logged_not_raised_witness :
  exists t',
    cleanupVersions (Sample.store true (inl Sample.denied) []) (utc 0)
      (Sample.manager None) "app" (tt, [])
      = (inr tt, (tt, [] ++ t')) /\
    destroyCalls t' = [].
Proof.
  destruct (listing_failure_is_logged_not_raised
              (Sample.store true (inl Sample.denied) []) (utc 0) (Sample.manager None)
              "app" Sample.app tt tt [] Sample.denied
              eq_refl eq_refl eq_refl eq_refl)
    as [t' [E [_ D]]].
  exists t'. split; [exact E | exact D].
Defined.

(** C2 (as stated) fails: the listing is refused with [denied], yet
    [cleanupVersions] returns normally instead of throwing that error. *)
Lemma listing_failure_does_not_reach_caller :
  listingAnswer (Sample.store true (inl Sample.denied) []) (Sample.manager None)
    "APP_ENV_FILE" tt = inl Sample.denied /\
  fst (cleanupVersions (Sample.store true (inl Sample.denied) []) (utc 0)
         (Sample.manager None) "app" (tt, [])) = inr tt /\
  fst (cleanupVersions (Sample.store true (inl Sample.denied) []) (utc 0)
         (Sample.manager None) "app" (tt, [])) <> inl Sample.denied.
Proof. vm_compute. repeat split. discriminate. Qed.

(** C5 (as the code has it) - Upload, then cleanup. When the secret
    exists already and the new version is added, the upload runs the
    cleanup of that same secret right after, on the world the addition
    left: with the policy enabled this sends the one listing request for
    the secret. Whatever the client answers during that cleanup, failed
    listing or failed destroys included, the upload returns normally
    and reports the file as uploaded. No version is added during the
    cleanup. *)
Theorem upload_runs_cleanup_and_survives_it {W : Type} (client : Client W)
  (files : string -> option string) (now : Date) (this : Manager)
  (serviceName envContent : string) (service : ServiceConfig)
  (version : SecretVersion) (w w1 w2 : W) (t : list event) :
  let secretName := (secretPrefix service ++ "_ENV_FILE")%string in
  let secretPath := secretPathOf this secretName in
  let added :=
    t ++ [Request (GetSecret secretPath);
          Request (AddSecretVersion secretPath envContent);
          ConsoleLog (UpdatedSecret secretName (name version))] in
  getServiceByName this serviceName = Some service ->
  files (replace "{env}"
           match environment this with staging => "stg" | production => "prod" end
           (envPath service)) = Some envContent ->
  getSecret client secretPath w = (inr tt, w1) ->
  addSecretVersion client secretPath envContent w1 = (inr version, w2) ->
  exists w3 t3,
    cleanupSecretVersions client now this secretName (w2, added)
      = (inr tt, (w3, added ++ t3)) /\
    uploadSingleEnv client files now this serviceName (w, t)
      = (inr tt,
         (w3, added ++ t3 ++ [ConsoleLog (Uploaded serviceName (environment this))])) /\
    addCalls t3 = [] /\
    (truthyBool (enabled (getDeletePolicy (configManager this))) = true ->
     listCalls t3 = [(secretPath, 100)]).
Proof.
  intros secretName secretPath added Hsvc Hfile Hget Hadd.
  destruct (cleanupSecretVersions_run client now this secretName w2 added)
    as [w3 [t3 [E [A [L _]]]]].
  exists w3, t3. split; [exact E|]. split; [|split; [exact A|]].
  - unfold uploadSingleEnv, getEnvPath, getSecretName. rewrite Hsvc.
    unfold bind at 1, ret. rewrite Hfile.
    unfold bind at 1. unfold bind at 1.
    unfold tryCatch. unfold bind at 1, call at 1. cbn [fst snd].
    fold secretName. fold secretPath. rewrite Hget.
    unfold bind at 1, call at 1. cbn [fst snd]. rewrite Hadd.
    unfold bind at 1, consoleLog at 1. cbn [fst snd].
    replace (((t ++ [Request (GetSecret secretPath)])
                ++ [Request (AddSecretVersion secretPath envContent)])
               ++ [ConsoleLog (UpdatedSecret secretName (name version))])
      with added by (unfold added; now rewrite <- !app_assoc).
    rewrite E. unfold consoleLog. cbn [fst snd].
    now rewrite <- app_assoc.
  - intros Hen. now rewrite Hen in L.
Qed.

(** The secret exists, the addition succeeds, and the listing that the
    cleanup asks for is refused. *)
Lemma upload_runs_cleanup_and_survives_it_witness :
  exists w3 t3,
    uploadSingleEnv (Sample.store true (inl Sample.denied) []) Sample.files
      (Sample.atDay 3) (Sample.manager (Some (Sample.policy 1 1))) "app" (tt, [])
      = (inr tt,
         (w3,
          ([] ++ [Request (GetSecret "projects/demo-stg/secrets/APP_ENV_FILE");
                  Request (AddSecretVersion
                             "projects/demo-stg/secrets/APP_ENV_FILE" "API_KEY=abc");
                  ConsoleLog (UpdatedSecret "APP_ENV_FILE"
                                (Some "projects/demo-stg/secrets/APP_ENV_FILE/versions/1"))])
          ++ t3 ++ [ConsoleLog (Uploaded "app" staging)])) /\
    listCalls t3 = [("projects/demo-stg/secrets/APP_ENV_FILE", 100)].
Proof.
  destruct (upload_runs_cleanup_and_survives_it
              (Sample.store true (inl Sample.denied) []) Sample.files
              (Sample.atDay 3) (Sample.manager (Some (Sample.policy 1 1)))
              "app" "API_KEY=abc" Sample.app
              {| name := Some "projects/demo-stg/secrets/APP_ENV_FILE/versions/1";
                 createTime := Some {| seconds := Some Sample.t0 |};
                 state := Some "ENABLED" |}
              tt tt tt [] eq_refl eq_refl eq_refl eq_refl)
    as [w3 [t3 [_ [E [_ L]]]]].
  exists w3, t3. split; [exact E | exact (L eq_refl)].
Defined.

(** C5 (as stated) fails on the first upload of a service: the secret is
    not there yet, the upload creates it, adds its first version and
    succeeds, and sends no listing request although the policy is
    enabled and a cleanup of that secret would have sent one. *)
Lemma first_upload_skips_cleanup :
  let client := Sample.store false (inr (Some (Sample.daily 3))) [] in
  let this := Sample.manager (Some (Sample.policy 1 1)) in
  let upload :=
    uploadSingleEnv client Sample.files (Sample.atDay 3) this "app" (tt, []) in
  fst upload = inr tt /\
  addCalls (snd (snd upload))
    = [("projects/demo-stg/secrets/APP_ENV_FILE", "API_KEY=abc")] /\
  listCalls (snd (snd upload)) = [] /\
  destroyCalls (snd (snd upload)) = [] /\
  listCalls (snd (snd (cleanupSecretVersions client (Sample.atDay 3) this
                         "APP_ENV_FILE" (tt, []))))
    = [("projects/demo-stg/secrets/APP_ENV_FILE", 100)].
Proof. vm_compute. repeat split. Qed.

(** C9 (as the code has it) - One listing, taken whole. A cleanup run
    with the policy enabled sends exactly one listing request, for the
    secret, with [pageSize] 100, and never throws. Its destroy requests
    are those of the plan computed on all the versions that one request
    returned, however many, so each of them names a version of that
    answer. *)
Theorem one_listing_taken_whole {W : Type} (client : Client W) (now : Date)
  (this : Manager) (secretName : string) (w : W) (t : list event) :
  truthyBool (enabled (getDeletePolicy (configManager this))) = true ->
  exists w' t',
    cleanupSecretVersions client now this secretName (w, t)
      = (inr tt, (w', t ++ t')) /\
    listCalls t' = [(secretPathOf this secretName, 100)] /\
    destroyCalls t'
      = destroyTargets
          (cleanupPlan (getDeletePolicy (configManager this)) now
             (Some (listedVersions (listingAnswer client this secretName w)))) /\
    Forall (fun n =>
              exists v,
                In v (listedVersions (listingAnswer client this secretName w)) /\
                name v = Some n)
           (destroyCalls t').
Proof.
  intros Hen.
  destruct (cleanupSecretVersions_run client now this secretName w t)
    as [w' [t' [E [_ [L D]]]]].
  rewrite Hen in L.
  assert (D' : destroyCalls t'
               = destroyTargets
                   (cleanupPlan (getDeletePolicy (configManager this)) now
                      (Some (listedVersions
                               (listingAnswer client this secretName w))))).
  { rewrite D.
    destruct (listingAnswer client this secretName w) as [e|[versions|]];
      simpl; try reflexivity;
      unfold cleanupPlan; now destruct (negb _). }
  exists w', t'. repeat split; [exact E | exact L | exact D' |].
  rewrite D'. apply Forall_forall. intros n Hn.
  apply destroyTargets_In in Hn. destruct Hn as [v [Hv Hname]].
  exists v. split; [|exact Hname].
  eapply cleanupPlan_incl in Hv; [|reflexivity].
  apply sortedVersions_In in Hv. tauto.
Qed.

(** The default policy, on a listing of three versions. *)
Lemma one_listing_taken_whole_witness :
  exists w' t',
    cleanupSecretVersions (Sample.store true (inr (Some (Sample.daily 3))) [])
      (Sample.atDay 40) (Sample.manager None) "APP_ENV_FILE" (tt, [])
      = (inr tt, (w', [] ++ t')) /\
    listCalls t' = [("projects/demo-stg/secrets/APP_ENV_FILE", 100)].
Proof.
  destruct (one_listing_taken_whole
              (Sample.store true (inr (Some (Sample.daily 3))) [])
              (Sample.atDay 40) (Sample.manager None) "APP_ENV_FILE" tt []
              eq_refl)
    as [w' [t' [E [L _]]]].
  exists w', t'. split; [exact E | exact L].
Defined.

(** C9 (as stated) fails when the one request returns more than 100
    versions: on an answer of 101 versions, newest first, with
    [maxVersions] 100 and no age limit, the run destroys the version
    listed last, in position 101, which a decision taken on the first
    100 entries would not even see. *)
Lemma version_past_first_hundred_destroyed :
  let answer := rev (Sample.daily 101) in
  let this := Sample.manager (Some (Sample.policy 100 0)) in
  let run :=
    cleanupSecretVersions (Sample.store true (inr (Some answer)) [])
      (Sample.atDay 100) this "APP_ENV_FILE" (tt, []) in
  List.length answer = 101%nat /\
  nth_error answer 100 = Some (Sample.version 1 Sample.t0 "ENABLED") /\
  listCalls (snd (snd run)) = [("projects/demo-stg/secrets/APP_ENV_FILE", 100)] /\
  destroyCalls (snd (snd run)) = [Sample.versionName 1] /\
  ~ In (Sample.versionName 1) (destroyTargets (firstn 100 answer)) /\
  cleanupPlan (Sample.policy 100 0) (Sample.atDay 100) (Some (firstn 100 answer))
    = [].
Proof.
  cbv zeta. split; [reflexivity|]. split; [vm_compute; reflexivity|].
  split; [vm_compute; reflexivity|]. split; [vm_compute; reflexivity|].
  split; [|vm_compute; reflexivity].
  intros Hin. apply destroyTargets_In in Hin. destruct Hin as [v [Hv Hname]].
  assert (Hb : forallb (fun v => negb (strictEq (name v) (Some (Sample.versionName 1))))
                 (firstn 100 (rev (Sample.daily 101))) = true)
    by (vm_compute; reflexivity).
  rewrite forallb_forall in Hb.
  specialize (Hb v Hv). rewrite Hname, strictEq_refl in Hb. discriminate.
Qed.

(** * Beyond the claims: the cleanup entry points *)

Lemma requestsOf_app t1 t2 : requestsOf (t1 ++ t2) = requestsOf t1 ++ requestsOf t2.
Proof. apply flat_map_app. Qed.

Lemma getServiceByName_found this n service :
  getServiceByName this n = Some service ->
  In service (services (configManager this)) /\ svc_name service = n.
Proof.
  unfold getServiceByName. intros H. apply find_some in H.
  destruct H as [Hin Heq]. apply String.eqb_eq in Heq. now split.
Qed.

Lemma getServiceByName_configured this n :
  In n (getServiceNames this) ->
  exists service, getServiceByName this n = Some service.
Proof.
  unfold getServiceNames, getServiceByName. intros Hin.
  apply in_map_iff in Hin. destruct Hin as [s [Hs Hin]].
  destruct (find (fun service => (svc_name service =? n)%string)
              (services (configManager this))) as [s'|] eqn:E.
  - now exists s'.
  - exfalso. apply (find_none _ _ E) in Hin.
    rewrite Hs, String.eqb_refl in Hin. discriminate.
Qed.

(** With distinct service names every lookup finds the service itself. *)
Lemma resolvedSecrets_distinct this :
  NoDup (getServiceNames this) ->
  resolvedSecrets this (getServiceNames this)
  = map secretNameOfService (services (configManager this)).
Proof.
  unfold resolvedSecrets, getServiceNames, getServiceByName.
  generalize (services (configManager this)) as l.
  intros l Hnd.
  assert (H : forall pre post, l = pre ++ post ->
            flat_map (fun n => match find (fun service => (svc_name service =? n)%string) l with
                               | Some service => [secretNameOfService service]
                               | None => []
                               end) (map svc_name post)
            = map secretNameOfService post).
  { intros pre post. revert pre. induction post as [|s post IH]; intros pre E.
    - reflexivity.
    - simpl. rewrite (IH (pre ++ [s])) by (rewrite <- app_assoc; exact E).
      assert (Hfind : find (fun service => (svc_name service =? svc_name s)%string) l
                      = Some s).
      { subst l. rewrite map_app in Hnd. simpl in Hnd.
        apply NoDup_remove_2 in Hnd.
        assert (Hpre : forall x, In x pre -> (svc_name x =? svc_name s)%string = false).
        { intros x Hx. apply String.eqb_neq. intros Heq. apply Hnd.
          apply in_or_app. left. rewrite <- Heq. now apply in_map. }
        clear -Hpre. induction pre as [|x pre IHp]; simpl.
        - now rewrite String.eqb_refl.
        - rewrite (Hpre x) by now left. apply IHp. intros y Hy. apply Hpre. now right. }
      now rewrite Hfind. }
  apply (H [] l). reflexivity.
Qed.

Lemma resolvedSecrets_length this names :
  (forall n, In n names -> In n (getServiceNames this)) ->
  List.length (resolvedSecrets this names) = List.length names.
Proof.
  induction names as [|n names IH]; intros H; [reflexivity|].
  unfold resolvedSecrets in *. simpl.
  destruct (getServiceByName_configured this n) as [s Hs]; [apply H; now left|].
  rewrite Hs. simpl. f_equal. apply IH. intros x Hx. apply H. now right.
Qed.

Section CleanupEntry.

Context {W : Type}.
Variable client : Client W.
Variable now : Date.
Variable this : Manager.

Lemma cleanupSecretVersions_disabled secretName s :
  truthyBool (enabled (getDeletePolicy (configManager this))) = false ->
  cleanupSecretVersions client now this secretName s = (inr tt, s).
Proof. unfold cleanupSecretVersions. now intros ->. Qed.

(** The loop of [cleanupVersions("all")] over names of the configuration. *)
Lemma cleanupAll_loop names :
  (forall n, In n names -> In n (getServiceNames this)) ->
  forall w t,
  exists w' t',
    forOf names
      (fun service =>
         secretName <- getSecretName this service ;;
         cleanupSecretVersions client now this secretName) (w, t)
      = (inr tt, (w', t ++ t')) /\
    addCalls t' = [] /\
    (if truthyBool (enabled (getDeletePolicy (configManager this)))
     then listCalls t'
          = map (fun secretName => (secretPathOf this secretName, 100))
                (resolvedSecrets this names)
     else t' = [] /\ w' = w).
Proof.
  induction names as [|n names IH]; intros Hconf w t.
  - exists w, []. rewrite app_nil_r. repeat split.
    now destruct (truthyBool _).
  - destruct (getServiceByName_configured this n) as [s Hs]; [apply Hconf; now left|].
    destruct (cleanupSecretVersions_run client now this
                (secretPrefix s ++ "_ENV_FILE") w t)
      as [w1 [t1 [E1 [A1 [L1 _]]]]].
    destruct (IH (fun x Hx => Hconf x (or_intror Hx)) w1 (t ++ t1))
      as [w2 [t2 [E2 [A2 L2]]]].
    exists w2, (t1 ++ t2). cbn [forOf]. unfold bind at 1.
    unfold getSecretName at 1. rewrite Hs. unfold bind at 1, ret.
    rewrite E1, E2, app_assoc. split; [reflexivity|].
    rewrite addCalls_app, A1, A2. split; [reflexivity|].
    unfold resolvedSecrets in *. cbn [flat_map]. rewrite Hs.
    destruct (truthyBool (enabled (getDeletePolicy (configManager this)))) eqn:Hen.
    + rewrite listCalls_app, L1, L2. reflexivity.
    + destruct L2 as [-> ->]. subst t1.
      rewrite (cleanupSecretVersions_disabled _ _ Hen) in E1.
      inversion E1. now split.
Qed.

End CleanupEntry.

(** X1 - A policy that is not enabled. When [enabled] is false or absent
    from the policy object, [cleanupSecretVersions] returns at once
    without touching anything, and [cleanupVersions], for one service or
    for "all", leaves the world as it was and sends no request. *)
Theorem disabled_policy_sends_no_request {W : Type} (client : Client W)
  (now : Date) (this : Manager) (serviceName : string) (w : W) (t : list event) :
  truthyBool (enabled (getDeletePolicy (configManager this))) = false ->
  (forall secretName s,
     cleanupSecretVersions client now this secretName s = (inr tt, s)) /\
  exists t',
    snd (cleanupVersions client now this serviceName (w, t)) = (w, t ++ t') /\
    requestsOf t' = [].
Proof.
  intros Hen. split; [intros; now apply cleanupSecretVersions_disabled|].
  unfold cleanupVersions. destruct (serviceName =? "all")%string.
  - destruct (cleanupAll_loop client now this (getServiceNames this)
                (fun n H => H) w t) as [w' [t' [E [_ L]]]].
    rewrite Hen in L. destruct L as [-> ->].
    unfold bind at 1. rewrite E. unfold consoleLog. cbn [fst snd].
    rewrite app_nil_r. eexists. split; reflexivity.
  - unfold getSecretName. destruct (getServiceByName this serviceName) as [s|].
    + unfold bind at 1, ret. unfold bind.
      rewrite (cleanupSecretVersions_disabled client now this _ _ Hen).
      unfold consoleLog. cbn [fst snd]. eexists. split; reflexivity.
    + exists []. unfold bind, throw. now rewrite app_nil_r.
Qed.

(** A policy object that sets both limits but carries no [enabled]. *)
Lemma disabled_policy_sends_no_request_witness :
  exists t',
    snd (cleanupVersions
           (Demo.store [] (Sample.daily 12) (inr tt) (inr Demo.added) (inr tt))
           (Sample.atDay 400)
           (Demo.manager staging
              (Some {| maxVersions := Some 5; maxAgeDays := Some 7;
                       enabled := None |}))
           "all" (tt, []))
      = (tt, [] ++ t') /\
    requestsOf t' = [].
Proof.
  apply (disabled_policy_sends_no_request
           (Demo.store [] (Sample.daily 12) (inr tt) (inr Demo.added) (inr tt))
           (Sample.atDay 400)
           (Demo.manager staging
              (Some {| maxVersions := Some 5; maxAgeDays := Some 7;
                       enabled := None |}))
           "all" tt []).
  reflexivity.
Defined.

(** X2 - Cleanup of all services. [cleanupVersions("all")] never throws,
    whatever the client answers for any of the secrets. With the policy
    enabled it sends one listing request per configured service, in the
    order of the configuration, for the secret of the first service
    that bears the name: with distinct names, for each service's own
    secret. No secret version is added. *)
Theorem cleanup_all_visits_every_service {W : Type} (client : Client W)
  (now : Date) (this : Manager) (w : W) (t : list event) :
  exists w' t',
    cleanupVersions client now this "all" (w, t) = (inr tt, (w', t ++ t')) /\
    addCalls t' = [] /\
    List.length (resolvedSecrets this (getServiceNames this))
      = List.length (services (configManager this)) /\
    (truthyBool (enabled (getDeletePolicy (configManager this))) = true ->
     listCalls t'
       = map (fun secretName => (secretPathOf this secretName, 100))
             (resolvedSecrets this (getServiceNames this))) /\
    (NoDup (getServiceNames this) ->
     resolvedSecrets this (getServiceNames this)
       = map secretNameOfService (services (configManager this))).
Proof.
  destruct (cleanupAll_loop client now this (getServiceNames this)
              (fun n H => H) w t) as [w' [t' [E [A L]]]].
  exists w', (t' ++ [ConsoleLog (CompletedCleanupAll (environment this))]).
  unfold cleanupVersions. rewrite String.eqb_refl.
  unfold bind at 1. rewrite E. unfold consoleLog. cbn [fst snd].
  rewrite app_assoc. split; [reflexivity|].
  rewrite addCalls_app, A. split; [reflexivity|]. split; [|split].
  - rewrite resolvedSecrets_length by auto.
    unfold getServiceNames. apply length_map.
  - intros Hen. rewrite Hen in L. rewrite listCalls_app, L. simpl.
    now rewrite app_nil_r.
  - apply resolvedSecrets_distinct.
Qed.

(** The listing of the first secret is refused; the second is listed. *)
Lemma cleanup_all_visits_every_service_witness :
  exists w' t',
    cleanupVersions
      (Demo.store ["projects/demo-stg/secrets/api-env-vars_ENV_FILE"]
         (Sample.daily 1) (inr tt) (inr Demo.added) (inr tt))
      (Sample.atDay 1) (Demo.manager staging None) "all" (tt, [])
      = (inr tt, (w', [] ++ t')) /\
    listCalls t'
      = [("projects/demo-stg/secrets/api-env-vars_ENV_FILE", 100);
         ("projects/demo-stg/secrets/web-env-vars_ENV_FILE", 100)].
Proof.
  destruct (cleanup_all_visits_every_service
              (Demo.store ["projects/demo-stg/secrets/api-env-vars_ENV_FILE"]
                 (Sample.daily 1) (inr tt) (inr Demo.added) (inr tt))
              (Sample.atDay 1) (Demo.manager staging None) tt [])
    as [w' [t' [E [_ [_ [L _]]]]]].
  exists w', t'. split; [exact E | exact (L eq_refl)].
Defined.

(** X3 - Unknown service. For a name other than "all" that the
    configuration does not hold, [cleanupVersions] and [uploadEnv] throw
    the error "Service '<name>' not found in configuration" and leave
    the world and the trace as they were: no request, no console line. *)
Theorem unknown_service_is_refused_first {W : Type} (client : Client W)
  (files : string -> option string) (now : Date) (this : Manager)
  (serviceName : string) (s : W * list event) :
  (serviceName =? "all")%string = false ->
  getServiceByName this serviceName = None ->
  cleanupVersions client now this serviceName s
    = (inl (serviceNotFound serviceName), s) /\
  uploadEnv client files now this serviceName s
    = (inl (serviceNotFound serviceName), s).
Proof.
  intros Hall Hnone. unfold cleanupVersions, uploadEnv, uploadSingleEnv.
  rewrite Hall. unfold getSecretName, getEnvPath. rewrite Hnone.
  split; reflexivity.
Qed.

Lemma unknown_service_is_refused_first_witness :
  uploadEnv (Demo.store [] [] (inr tt) (inr Demo.added) (inr tt)) Demo.files (utc 0)
    (Demo.manager staging None) "billing" (tt, [])
  = (inl {| message := "Service 'billing' not found in configuration" |},
     (tt, [])).
Proof.
  apply (unknown_service_is_refused_first
           (Demo.store [] [] (inr tt) (inr Demo.added) (inr tt)) Demo.files (utc 0)
           (Demo.manager staging None) "billing" (tt, []));
    reflexivity.
Defined.

(** * Beyond the claims: each rule on its own, and what is retained *)

Lemma positive_false_excess p sorted :
  positive (maxVersions p) = false -> excessVersions p sorted = [].
Proof. unfold excessVersions. now intros ->. Qed.

Lemma filter_length_lt {A} f (l : list A) x :
  In x l -> f x = false -> (List.length (filter f l) < List.length l)%nat.
Proof.
  induction l as [|a l IH]; simpl; [tauto|].
  pose proof (filter_length_le f l) as L.
  intros [->|Hin] Hf.
  - rewrite Hf. lia.
  - specialize (IH Hin Hf). destruct (f a); simpl; lia.
Qed.

Lemma filter_all {A} f (l : list A) :
  (forall x, In x l -> f x = true) -> filter f l = l.
Proof.
  induction l as [|a l IH]; simpl; intros H; [reflexivity|].
  rewrite (H a) by now left. f_equal. apply IH. intros x Hx. apply H. now right.
Qed.

Lemma NoDup_removelast {A} (l : list A) : NoDup l -> NoDup (removelast l).
Proof.
  destruct l as [|a l]; [trivial|]. intros H.
  rewrite (app_removelast_last a (l := a :: l)) in H by discriminate.
  now apply NoDup_app_remove_r in H.
Qed.

Lemma map_removelast {A B} (f : A -> B) l :
  map f (removelast l) = removelast (map f l).
Proof.
  induction l as [|a l IH]; [reflexivity|].
  destruct l; [reflexivity|]. simpl in *. now rewrite IH.
Qed.

Lemma markedVersions_NoDup_names p now versions :
  NoDup (map name (liveSet versions)) ->
  NoDup (map name (markedVersions p now (sortedVersions versions))).
Proof.
  intros Hnd. unfold markedVersions.
  apply pushUnmarked_NoDup, excessVersions_NoDup_names,
    sortedVersions_NoDup_names, Hnd.
Qed.

Lemma versionsToDestroy_NoDup_names p now versions :
  NoDup (map name (liveSet versions)) ->
  NoDup (map name (versionsToDestroy p now versions)).
Proof.
  intros Hnd. unfold versionsToDestroy, keepAtLeastOne.
  pose proof (markedVersions_NoDup_names p now versions Hnd) as H.
  destruct (_ <=? _)%nat; [|exact H].
  rewrite map_removelast. now apply NoDup_removelast.
Qed.

Lemma destroyTargets_NoDup l :
  NoDup (map name l) -> NoDup (destroyTargets l).
Proof.
  induction l as [|v l IH]; simpl; intros H; [constructor|].
  apply NoDup_cons_iff in H. destruct H as [Hv H].
  unfold destroyTargets in *. simpl.
  destruct (truthyStr (name v)); [|simpl; now apply IH].
  destruct (name v) as [n|] eqn:En; [|simpl; now apply IH].
  simpl. constructor; [|now apply IH].
  intros Hin. apply Hv.
  change (In n (destroyTargets l)) in Hin.
  apply destroyTargets_In in Hin. destruct Hin as [v' [Hv' Hn]].
  rewrite <- Hn. now apply in_map.
Qed.

Lemma NoDup_map_injective {A B} (f : A -> B) l a b :
  NoDup (map f l) -> In a l -> In b l -> f a = f b -> a = b.
Proof.
  induction l as [|x l IH]; simpl; [tauto|].
  intros H Ha Hb E. apply NoDup_cons_iff in H. destruct H as [Hx H].
  destruct Ha as [->|Ha], Hb as [->|Hb]; auto.
  - exfalso. apply Hx. rewrite E. now apply in_map.
  - exfalso. apply Hx. rewrite <- E. now apply in_map.
Qed.

Lemma oldVersions_In p now l v :
  In v (oldVersions p now l) <-> In v l /\ In v (oldVersions p now [v]).
Proof.
  unfold oldVersions.
  destruct (positive (maxAgeDays p)); [|simpl; tauto].
  destruct (maxAgeDays p) as [d|]; [|simpl; tauto].
  rewrite filter_In. simpl.
  destruct (olderThan (cutoffDate now d) v); simpl; intuition congruence.
Qed.

(** What the count rule keeps and the age rule does not mark is not in
    the destroy list, by name. *)
Lemma kept_and_fresh_is_retained p now versions v :
  NoDup (map name (liveSet versions)) ->
  In v (keptByCount p (sortedVersions versions)) ->
  ~ In v (oldVersions p now (sortedVersions versions)) ->
  ~ In (name v) (map name (versionsToDestroy p now versions)).
Proof.
  intros Hnd Hkept Hfresh Hin.
  apply sortedVersions_NoDup_names in Hnd.
  set (sorted := sortedVersions versions) in *.
  assert (Hm : In (name v) (map name (markedVersions p now sorted))).
  { apply in_map_iff in Hin. destruct Hin as [x [Hx Hin]].
    apply keepAtLeastOne_incl in Hin. rewrite <- Hx. now apply in_map. }
  pose proof (kept_then_excess p sorted) as Hsplit.
  assert (Hsorted : In v sorted)
    by (rewrite Hsplit; apply in_or_app; now left).
  rewrite Hsplit, map_app in Hnd.
  rewrite markedVersions_kept, pushUnmarked_names in Hm.
  destruct Hm as [Hm|Hm].
  - apply (in_map name) in Hkept.
    apply in_split in Hkept. destruct Hkept as [l1 [l2 Hk]].
    rewrite Hk, <- app_assoc in Hnd. simpl in Hnd.
    apply NoDup_remove_2 in Hnd. apply Hnd.
    rewrite app_assoc. apply in_or_app. now right.
  - apply in_map_iff in Hm. destruct Hm as [x [Hx Hold]].
    apply NoDup_app_remove_r in Hnd.
    assert (Hxk : In x (keptByCount p sorted)).
    { apply oldVersions_In in Hold. tauto. }
    assert (x = v) by (eapply NoDup_map_injective; eauto).
    subst x. apply Hfresh. apply oldVersions_In. split; [exact Hsorted|].
    apply oldVersions_In in Hold. tauto.
Qed.

(** X4 - The count rule alone. With [maxVersions] at least 1 and no
    positive [maxAgeDays], the destroy list is the sorted live list
    without its first [maxVersions] entries: exactly the newest
    [maxVersions] live versions are kept, and at least one of them when
    any version is live. *)
Theorem count_rule_keeps_the_newest (p : DeletePolicy) (now : Date)
  (versions : list SecretVersion) (m : Z) :
  maxVersions p = Some m -> 0 < m ->
  positive (maxAgeDays p) = false ->
  versionsToDestroy p now versions
    = skipn (Z.to_nat m) (sortedVersions versions) /\
  sortedVersions versions
    = firstn (Z.to_nat m) (sortedVersions versions)
      ++ versionsToDestroy p now versions.
Proof.
  intros Hm Hpos Hage.
  assert (E : versionsToDestroy p now versions
              = skipn (Z.to_nat m) (sortedVersions versions)).
  { unfold versionsToDestroy, keepAtLeastOne, markedVersions, oldVersions,
      excessVersions.
    rewrite Hage, Hm.
    replace (positive (Some m)) with true
      by (symmetry; apply positive_spec; now exists m).
    cbn [pushUnmarked fold_left].
    destruct (sortedVersions versions) as [|s sorted].
    - now rewrite skipn_nil.
    - destruct (_ <=? _)%nat eqn:L; [|reflexivity].
      apply Nat.leb_le in L. rewrite length_skipn in L.
      cbn [List.length] in L. lia. }
  split; [exact E|]. rewrite E. symmetry. apply firstn_skipn.
Qed.

Lemma count_rule_keeps_the_newest_witness :
  versionsToDestroy {| maxVersions := Some 10; maxAgeDays := Some 0;
                       enabled := Some true |}
    (Sample.atDay 400) (Sample.daily 12)
  = skipn 10 (sortedVersions (Sample.daily 12)).
Proof.
  apply (count_rule_keeps_the_newest
           {| maxVersions := Some 10; maxAgeDays := Some 0; enabled := Some true |}
           (Sample.atDay 400) (Sample.daily 12) 10); reflexivity.
Defined.

(** X5 - The age rule alone. With [maxAgeDays] at least 1, no positive
    [maxVersions] and distinct version names: if some live version is
    not older than the cutoff, the destroy list is exactly the live
    versions older than it, newest first; if every live version is
    older, the destroy list is the sorted live list without its last
    entry, so that the oldest version is the one left. *)
Theorem age_rule_alone (p : DeletePolicy) (now : Date)
  (versions : list SecretVersion) (d : Z) :
  positive (maxVersions p) = false ->
  maxAgeDays p = Some d -> 0 < d ->
  NoDup (map name (liveSet versions)) ->
  ((exists v, In v (liveSet versions) /\ olderThan (cutoffDate now d) v = false) ->
   versionsToDestroy p now versions
     = filter (olderThan (cutoffDate now d)) (sortedVersions versions)) /\
  ((forall v, In v (liveSet versions) -> olderThan (cutoffDate now d) v = true) ->
   versionsToDestroy p now versions = removelast (sortedVersions versions)).
Proof.
  intros Hcount Hd Hpos Hnd.
  apply sortedVersions_NoDup_names in Hnd.
  assert (Hmarked : markedVersions p now (sortedVersions versions)
                    = filter (olderThan (cutoffDate now d)) (sortedVersions versions)).
  { unfold markedVersions, oldVersions.
    rewrite (positive_false_excess p _ Hcount), Hd.
    replace (positive (Some d)) with true
      by (symmetry; apply positive_spec; now exists d).
    apply (pushUnmarked_fresh []).
    - now apply NoDup_map_filter.
    - intros v _ []. }
  unfold versionsToDestroy, keepAtLeastOne. rewrite Hmarked. split.
  - intros [v [Hv Hfresh]].
    assert (Hin : In v (sortedVersions versions))
      by (apply sortNewestFirst_In; exact Hv).
    pose proof (filter_length_lt _ _ _ Hin Hfresh) as L.
    apply Nat.leb_gt in L. now rewrite L.
  - intros Hall. rewrite filter_all.
    + now rewrite Nat.leb_refl.
    + intros v Hv. apply Hall. now apply sortNewestFirst_In.
Qed.

Lemma age_rule_alone_witness :
  versionsToDestroy (Sample.policy 0 3) (Sample.atDay 11) (Sample.daily 12)
  = filter (olderThan (cutoffDate (Sample.atDay 11) 3))
           (sortedVersions (Sample.daily 12)).
Proof.
  apply (age_rule_alone (Sample.policy 0 3) (Sample.atDay 11) (Sample.daily 12) 3).
  - reflexivity.
  - reflexivity.
  - reflexivity.
  - vm_compute. repeat (constructor; [simpl; intuition discriminate|]). constructor.
  - exists (Sample.version 12 (Sample.t0 + 11 * Sample.day) "ENABLED").
    split; [vm_compute; tauto | reflexivity].
Defined.

(** X6 - What stays. With distinct version names, a live version that
    is among the newest [maxVersions] (any live version when there is
    no count limit) and that the age rule does not mark is never in the
    destroy list; in particular the newest live version is never
    destroyed unless it is itself older than the age limit. *)
Theorem within_limits_is_retained (p : DeletePolicy) (now : Date)
  (versions : list SecretVersion) :
  NoDup (map name (liveSet versions)) ->
  (forall v,
     In v (keptByCount p (sortedVersions versions)) ->
     ~ In v (oldVersions p now (sortedVersions versions)) ->
     ~ In (name v) (map name (versionsToDestroy p now versions))) /\
  (forall newest rest,
     sortedVersions versions = newest :: rest ->
     ~ In newest (oldVersions p now (sortedVersions versions)) ->
     ~ In (name newest) (map name (versionsToDestroy p now versions))).
Proof.
  intros Hnd. split.
  - intros v. now apply kept_and_fresh_is_retained.
  - intros newest rest Hs Hfresh.
    apply kept_and_fresh_is_retained; [exact Hnd | | exact Hfresh].
    assert (Hne : sortedVersions versions <> []) by (rewrite Hs; discriminate).
    pose proof (keptByCount_nonempty p _ Hne) as Hk.
    pose proof (kept_then_excess p (sortedVersions versions)) as Hsplit.
    destruct (keptByCount p (sortedVersions versions)) as [|k kept];
      [congruence|].
    rewrite Hs in Hsplit. simpl in Hsplit. inversion Hsplit. now left.
Qed.

(** Twelve daily versions, all but the newest past a one-day limit. *)
Lemma within_limits_is_retained_witness :
  ~ In (Some (Sample.versionName 12))
       (map name (versionsToDestroy (Sample.policy 0 1) (Sample.atDay 12)
                    (Sample.daily 12))).
Proof.
  destruct (within_limits_is_retained (Sample.policy 0 1) (Sample.atDay 12)
              (Sample.daily 12)) as [_ H].
  - vm_compute. repeat (constructor; [simpl; intuition discriminate|]). constructor.
  - apply (H (Sample.version 12 (Sample.t0 + 11 * Sample.day) "ENABLED")
             (skipn 1 (sortedVersions (Sample.daily 12)))).
    + vm_compute. reflexivity.
    + vm_compute. intuition discriminate.
Defined.

(** X7 - No version is destroyed twice. When the live versions of the
    listing received carry distinct names, the destroy requests of a
    cleanup run are pairwise distinct, against any client. *)
Theorem no_version_destroyed_twice {W : Type} (client : Client W) (now : Date)
  (this : Manager) (secretName : string) (w : W) (t : list event) :
  NoDup (map name (liveSet (listedVersions (listingAnswer client this secretName w)))) ->
  exists w' t',
    cleanupSecretVersions client now this secretName (w, t)
      = (inr tt, (w', t ++ t')) /\
    NoDup (destroyCalls t').
Proof.
  intros Hnd.
  destruct (cleanupSecretVersions_run client now this secretName w t)
    as [w' [t' [E [_ [_ D]]]]].
  exists w', t'. split; [exact E|]. rewrite D.
  destruct (listingAnswer client this secretName w) as [e|[versions|]];
    simpl in *; try constructor.
  - apply destroyTargets_NoDup.
    destruct (cleanupPlan_cases (getDeletePolicy (configManager this)) now versions)
      as [->| ->]; [constructor|].
    now apply versionsToDestroy_NoDup_names.
  - unfold cleanupPlan. destruct (negb _); constructor.
Qed.

Lemma no_version_destroyed_twice_witness :
  exists w' t',
    cleanupSecretVersions
      (Sample.store true (inr (Some (Sample.daily 4))) [])
      (Sample.atDay 40) (Sample.manager (Some (Sample.policy 2 1)))
      "APP_ENV_FILE" (tt, [])
      = (inr tt, (w', [] ++ t')) /\
    NoDup (destroyCalls t').
Proof.
  apply (no_version_destroyed_twice
           (Sample.store true (inr (Some (Sample.daily 4))) [])
           (Sample.atDay 40) (Sample.manager (Some (Sample.policy 2 1)))
           "APP_ENV_FILE" tt []).
  vm_compute. repeat (constructor; [simpl; intuition discriminate|]). constructor.
Defined.

(** * Beyond the claims: the upload *)

(** A loop stops at the first turn that throws. *)
Lemma forOf_stops {W A} (body : A -> M W unit) done failing later s s1 s2 e :
  forOf done body s = (inr tt, s1) ->
  body failing s1 = (inl e, s2) ->
  forOf (done ++ failing :: later) body s = (inl e, s2).
Proof.
  revert s. induction done as [|x done IH]; intros s Hdone Hfail.
  - cbn in Hdone. inversion Hdone; subst. cbn [app forOf]. unfold bind.
    now rewrite Hfail.
  - cbn [app forOf] in *. unfold bind in *.
    destruct (body x s) as [[e'|[]] s'].
    + discriminate.
    + now apply IH.
Qed.

Section Upload.

Context {W : Type}.
Variable client : Client W.
Variable files : string -> option string.
Variable now : Date.
Variable this : Manager.
Variable serviceName : string.
Variable service : ServiceConfig.
Variable envContent : string.

Hypothesis service_found : getServiceByName this serviceName = Some service.
Hypothesis file_found :
  files (replace "{env}"
           match environment this with staging => "stg" | production => "prod" end
           (envPath service)) = Some envContent.

(** The upload once the service and its file are found: what is left is
    the [try] block, its [catch] and the closing console line. *)
Lemma uploadSingleEnv_found s :
  uploadSingleEnv client files now this serviceName s
  = (tryCatch
       (call (GetSecret (secretPathOf this (secretNameOfService service)))
             (getSecret client (secretPathOf this (secretNameOfService service))) ;;
        version <- call (AddSecretVersion
                           (secretPathOf this (secretNameOfService service))
                           envContent)
                        (addSecretVersion client
                           (secretPathOf this (secretNameOfService service))
                           envContent) ;;
        consoleLog (UpdatedSecret (secretNameOfService service) (name version)) ;;
        cleanupSecretVersions client now this (secretNameOfService service))
       (fun error =>
          if includes "NOT_FOUND" (message error)
          then
            call (CreateSecret ("projects/" ++ projectId this)
                               (secretNameOfService service))
                 (createSecret client ("projects/" ++ projectId this)
                               (secretNameOfService service)) ;;
            version <- call (AddSecretVersion
                               (secretPathOf this (secretNameOfService service))
                               envContent)
                            (addSecretVersion client
                               (secretPathOf this (secretNameOfService service))
                               envContent) ;;
            consoleLog (CreatedSecret (secretNameOfService service) (name version))
          else throw error) ;;
     consoleLog (Uploaded serviceName (environment this))) s.
Proof.
  unfold uploadSingleEnv, getEnvPath, getSecretName. rewrite service_found.
  unfold bind at 1, ret. rewrite file_found. unfold bind at 1. reflexivity.
Qed.

End Upload.

(** X8 - Upload rethrows what is not NOT_FOUND. For a configured
    service whose file exists: when [getSecret] fails with an error
    whose message does not contain NOT_FOUND, the upload throws that
    very error after this single request; when [getSecret] succeeds
    and [addSecretVersion] fails with such an error, it throws that
    error after these two requests. In both cases no secret is created,
    no cleanup runs and nothing is written to the console. *)
Theorem upload_rethrows_other_errors {W : Type} (client : Client W)
  (files : string -> option string) (now : Date) (this : Manager)
  (serviceName envContent : string) (service : ServiceConfig)
  (e : Error) (w w1 w2 : W) (t : list event) :
  let secretPath := secretPathOf this (secretNameOfService service) in
  getServiceByName this serviceName = Some service ->
  files (replace "{env}"
           match environment this with staging => "stg" | production => "prod" end
           (envPath service)) = Some envContent ->
  includes "NOT_FOUND" (message e) = false ->
  (getSecret client secretPath w = (inl e, w1) ->
   uploadSingleEnv client files now this serviceName (w, t)
     = (inl e, (w1, t ++ [Request (GetSecret secretPath)]))) /\
  (getSecret client secretPath w = (inr tt, w1) ->
   addSecretVersion client secretPath envContent w1 = (inl e, w2) ->
   uploadSingleEnv client files now this serviceName (w, t)
     = (inl e, (w2, t ++ [Request (GetSecret secretPath);
                          Request (AddSecretVersion secretPath envContent)]))).
Proof.
  intros secretPath Hsvc Hfile Hmsg. split.
  - intros Hget.
    rewrite (uploadSingleEnv_found client files now this serviceName service
               envContent Hsvc Hfile).
    unfold bind at 1, tryCatch, bind at 1, call at 1. cbn [fst snd].
    fold secretPath. rewrite Hget, Hmsg. reflexivity.
  - intros Hget Hadd.
    rewrite (uploadSingleEnv_found client files now this serviceName service
               envContent Hsvc Hfile).
    unfold bind at 1, tryCatch, bind at 1, call at 1. cbn [fst snd].
    fold secretPath. rewrite Hget.
    unfold bind at 1, call at 1. cbn [fst snd]. rewrite Hadd, Hmsg.
    unfold throw. now rewrite <- app_assoc.
Qed.

(** The store is unavailable when asked for the secret. *)
Lemma upload_rethrows_other_errors_witness :
  uploadSingleEnv
    (Demo.store [] [] (inl Demo.unavailable) (inr Demo.added) (inr tt))
    Demo.files (utc 0) (Demo.manager staging None) "api" (tt, [])
  = (inl Demo.unavailable,
     (tt, [] ++ [Request (GetSecret
                            "projects/demo-stg/secrets/api-env-vars_ENV_FILE")])).
Proof.
  apply (upload_rethrows_other_errors
           (Demo.store [] [] (inl Demo.unavailable) (inr Demo.added) (inr tt))
           Demo.files (utc 0) (Demo.manager staging None) "api" "PORT=8080" Demo.api
           Demo.unavailable tt tt tt []); reflexivity.
Defined.

(** X9 - First upload of a service. For a configured service whose file
    exists, when [getSecret] fails with a NOT_FOUND error the upload
    asks to create the secret under "projects/<project>" and then adds
    the file's content as its first version.
    If the creation fails, that error is thrown and no version is
    added; if the addition fails, that error is thrown; otherwise the
    upload succeeds, and no listing or destroy request is sent. *)
Theorem first_upload_creates_the_secret {W : Type} (client : Client W)
  (files : string -> option string) (now : Date) (this : Manager)
  (serviceName envContent : string) (service : ServiceConfig)
  (e : Error) (w w1 w2 : W) (t : list event)
  (created : Error + unit) :
  let secretName := secretNameOfService service in
  let secretPath := secretPathOf this secretName in
  let asked :=
    t ++ [Request (GetSecret secretPath);
          Request (CreateSecret ("projects/" ++ projectId this) secretName)] in
  getServiceByName this serviceName = Some service ->
  files (replace "{env}"
           match environment this with staging => "stg" | production => "prod" end
           (envPath service)) = Some envContent ->
  getSecret client secretPath w = (inl e, w1) ->
  includes "NOT_FOUND" (message e) = true ->
  createSecret client ("projects/" ++ projectId this) secretName w1
    = (created, w2) ->
  uploadSingleEnv client files now this serviceName (w, t)
  = match created with
    | inl e' => (inl e', (w2, asked))
    | inr _ =>
        match addSecretVersion client secretPath envContent w2 with
        | (inl e', w3) =>
            (inl e', (w3, asked ++ [Request (AddSecretVersion secretPath envContent)]))
        | (inr version, w3) =>
            (inr tt,
             (w3, asked ++ [Request (AddSecretVersion secretPath envContent);
                            ConsoleLog (CreatedSecret secretName (name version));
                            ConsoleLog (Uploaded serviceName (environment this))]))
        end
    end.
Proof.
  intros secretName secretPath asked Hsvc Hfile Hget Hmsg Hcreate.
  rewrite (uploadSingleEnv_found client files now this serviceName service
             envContent Hsvc Hfile).
  unfold bind at 1, tryCatch, bind at 1, call at 1. cbn [fst snd].
  fold secretName. fold secretPath. rewrite Hget, Hmsg.
  unfold bind at 1, call at 1. cbn [fst snd]. rewrite Hcreate.
  subst asked. destruct created as [e'|[]].
  - now rewrite <- app_assoc.
  - unfold bind at 1, call at 1. cbn [fst snd].
    destruct (addSecretVersion client secretPath envContent w2) as [[e'|v] w3].
    + now rewrite <- !app_assoc.
    + unfold consoleLog. cbn [fst snd]. now rewrite <- !app_assoc.
Qed.

Lemma first_upload_creates_the_secret_witness :
  uploadSingleEnv
    (Demo.store [] [] (inl Demo.notFound) (inr Demo.added) (inr tt))
    Demo.files (utc 0) (Demo.manager staging None) "api" (tt, [])
  = (inr tt,
     (tt,
      ([] ++ [Request (GetSecret "projects/demo-stg/secrets/api-env-vars_ENV_FILE");
              Request (CreateSecret "projects/demo-stg" "api-env-vars_ENV_FILE")])
      ++ [Request (AddSecretVersion
                     "projects/demo-stg/secrets/api-env-vars_ENV_FILE" "PORT=8080");
          ConsoleLog (CreatedSecret "api-env-vars_ENV_FILE" (name Demo.added));
          ConsoleLog (Uploaded "api" staging)])).
Proof.
  apply (first_upload_creates_the_secret
           (Demo.store [] [] (inl Demo.notFound) (inr Demo.added) (inr tt))
           Demo.files (utc 0) (Demo.manager staging None) "api" "PORT=8080" Demo.api
           Demo.notFound tt tt tt [] (inr tt)); reflexivity.
Defined.

(** X10 - NOT_FOUND from the addition. The [catch] of the upload looks
    only at the message, so when the secret exists and it is
    [addSecretVersion] that fails with a NOT_FOUND error, the upload
    still turns to creating the secret; if that creation fails, the
    upload throws the error of the creation, not the one of the
    addition, after the three requests get, add, create. *)
Theorem add_not_found_turns_to_create {W : Type} (client : Client W)
  (files : string -> option string) (now : Date) (this : Manager)
  (serviceName envContent : string) (service : ServiceConfig)
  (e e' : Error) (w w1 w2 w3 : W) (t : list event) :
  let secretName := secretNameOfService service in
  let secretPath := secretPathOf this secretName in
  getServiceByName this serviceName = Some service ->
  files (replace "{env}"
           match environment this with staging => "stg" | production => "prod" end
           (envPath service)) = Some envContent ->
  getSecret client secretPath w = (inr tt, w1) ->
  addSecretVersion client secretPath envContent w1 = (inl e, w2) ->
  includes "NOT_FOUND" (message e) = true ->
  createSecret client ("projects/" ++ projectId this) secretName w2
    = (inl e', w3) ->
  uploadSingleEnv client files now this serviceName (w, t)
  = (inl e',
     (w3, t ++ [Request (GetSecret secretPath);
                Request (AddSecretVersion secretPath envContent);
                Request (CreateSecret ("projects/" ++ projectId this) secretName)])).
Proof.
  intros secretName secretPath Hsvc Hfile Hget Hadd Hmsg Hcreate.
  rewrite (uploadSingleEnv_found client files now this serviceName service
             envContent Hsvc Hfile).
  unfold bind at 1, tryCatch, bind at 1, call at 1. cbn [fst snd].
  fold secretName. fold secretPath. rewrite Hget.
  unfold bind at 1, call at 1. cbn [fst snd]. rewrite Hadd, Hmsg.
  unfold bind at 1, call at 1. cbn [fst snd]. rewrite Hcreate.
  now rewrite <- !app_assoc.
Qed.

Lemma add_not_found_turns_to_create_witness :
  uploadSingleEnv
    (Demo.store [] [] (inr tt) (inl Demo.notFound) (inl Demo.unavailable))
    Demo.files (utc 0) (Demo.manager staging None) "api" (tt, [])
  = (inl Demo.unavailable,
     (tt,
      [] ++ [Request (GetSecret "projects/demo-stg/secrets/api-env-vars_ENV_FILE");
             Request (AddSecretVersion
                        "projects/demo-stg/secrets/api-env-vars_ENV_FILE" "PORT=8080");
             Request (CreateSecret "projects/demo-stg" "api-env-vars_ENV_FILE")])).
Proof.
  apply (add_not_found_turns_to_create
           (Demo.store [] [] (inr tt) (inl Demo.notFound) (inl Demo.unavailable))
           Demo.files (utc 0) (Demo.manager staging None) "api" "PORT=8080" Demo.api
           Demo.notFound Demo.unavailable tt tt tt tt []); reflexivity.
Defined.

(** X11 - Upload of all services stops at the first failure. When the
    uploads of the first services succeed and the upload of the next
    one throws, [uploadEnv("all")] throws that error in the state that
    upload left: the services after it are not uploaded. A missing
    local file is such a failure, thrown before any request. *)
Theorem upload_all_stops_at_first_failure {W : Type} (client : Client W)
  (files : string -> option string) (now : Date) (this : Manager)
  (done later : list string) (failing : string) (e : Error)
  (s s1 s2 : W * list event) :
  getServiceNames this = done ++ failing :: later ->
  forOf done (uploadSingleEnv client files now this) s = (inr tt, s1) ->
  uploadSingleEnv client files now this failing s1 = (inl e, s2) ->
  uploadEnv client files now this "all" s = (inl e, s2) /\
  (forall service,
     getServiceByName this failing = Some service ->
     files (replace "{env}"
              match environment this with staging => "stg" | production => "prod" end
              (envPath service)) = None ->
     s2 = s1).
Proof.
  intros Hnames Hdone Hfail. split.
  - unfold uploadEnv. rewrite String.eqb_refl, Hnames.
    eapply forOf_stops; eassumption.
  - intros service Hsvc Hfile.
    unfold uploadSingleEnv, getEnvPath in Hfail. rewrite Hsvc in Hfail.
    unfold bind at 1, ret in Hfail. rewrite Hfile in Hfail.
    unfold throw in Hfail. now inversion Hfail.
Qed.

(** In production the file of [api] is missing: [web] is never tried. *)
Lemma upload_all_stops_at_first_failure_witness :
  uploadEnv
    (Demo.store [] [] (inr tt) (inr Demo.added) (inr tt))
    Demo.files (utc 0) (Demo.manager production None) "all" (tt, [])
  = (inl {| message := "Environment file not found at .environments/.api.prod.env" |},
     (tt, [])).
Proof.
  apply (upload_all_stops_at_first_failure
           (Demo.store [] [] (inr tt) (inr Demo.added) (inr tt))
           Demo.files (utc 0) (Demo.manager production None) [] ["web"] "api"
           {| message := "Environment file not found at .environments/.api.prod.env" |}
           (tt, []) (tt, []) (tt, [])); reflexivity.
Defined.

(** * Beyond the claims: the path of the environment file *)

Lemma substring_whole s : substring 0 (String.length s) s = s.
Proof. induction s as [|c s IH]; simpl; [reflexivity | now rewrite IH]. Qed.

Lemma substring_after pat rest :
  substring (String.length pat)
            (String.length (pat ++ rest) - String.length pat) (pat ++ rest)
  = rest.
Proof.
  induction pat as [|c pat IH]; simpl.
  - rewrite Nat.sub_0_r. apply substring_whole.
  - exact IH.
Qed.

Lemma prefix_append pat rest : String.prefix pat (pat ++ rest) = true.
Proof.
  induction pat as [|c pat IH]; simpl.
  - now destruct rest.
  - destruct (Ascii.ascii_dec c c); [exact IH | congruence].
Qed.

Lemma replace_unfold pat by_ s :
  replace pat by_ s
  = if String.prefix pat s
    then (by_ ++ substring (String.length pat)
                           (String.length s - String.length pat) s)%string
    else match s with
         | EmptyString => EmptyString
         | String c s' => String c (replace pat by_ s')
         end.
Proof. destruct s; reflexivity. Qed.

Lemma replace_here pat by_ rest : replace pat by_ (pat ++ rest) = (by_ ++ rest)%string.
Proof. now rewrite replace_unfold, prefix_append, substring_after. Qed.

Lemma replace_absent pat by_ s : includes pat s = false -> replace pat by_ s = s.
Proof.
  induction s as [|c s IH]; simpl; intros H; apply orb_false_iff in H;
    destruct H as [Hp Hi].
  - now rewrite Hp.
  - rewrite Hp. f_equal. now apply IH.
Qed.

Lemma prefix_split pat s :
  String.prefix pat s = true ->
  s = (pat ++ substring (String.length pat)
                        (String.length s - String.length pat) s)%string.
Proof.
  revert s. induction pat as [|c pat IH]; intros s H.
  - simpl. rewrite Nat.sub_0_r. symmetry. apply substring_whole.
  - destruct s as [|x s]; [discriminate|]. simpl in H.
    destruct (Ascii.ascii_dec c x) as [->|]; [|discriminate].
    cbn [String.length append substring Nat.sub]. f_equal. now apply IH.
Qed.

Lemma prefix_app_true pat s rest :
  String.prefix pat s = true -> String.prefix pat (s ++ rest) = true.
Proof.
  revert s. induction pat as [|c pat IH]; intros s H.
  - now destruct (s ++ rest)%string.
  - destruct s as [|x s]; [discriminate|]. simpl in *.
    destruct (Ascii.ascii_dec c x); [now apply IH | discriminate].
Qed.

(** [replace] acts at the first place where the pattern occurs: the
    text splits there, no occurrence starts earlier, and only that
    occurrence is exchanged. *)
Lemma replace_first pat by_ s :
  includes pat s = true ->
  exists before rest,
    s = (before ++ pat ++ rest)%string /\
    (forall lead tail,
       before = (lead ++ tail)%string -> tail <> ""%string ->
       String.prefix pat (tail ++ pat ++ rest) = false) /\
    replace pat by_ s = (before ++ by_ ++ rest)%string.
Proof.
  induction s as [|c s IH]; intros H.
  - cbn [includes] in H. rewrite orb_false_r in H.
    exists ""%string, (substring (String.length pat)
                         (String.length "" - String.length pat) "").
    split; [exact (prefix_split pat "" H)|]. split.
    + intros lead tail E Hne. destruct lead, tail; simpl in E; congruence.
    + now rewrite replace_unfold, H.
  - destruct (String.prefix pat (String c s)) eqn:Hp.
    + exists ""%string, (substring (String.length pat)
                           (String.length (String c s) - String.length pat)
                           (String c s)).
      split; [exact (prefix_split pat _ Hp)|]. split.
      * intros lead tail E Hne. destruct lead, tail; simpl in E; congruence.
      * now rewrite replace_unfold, Hp.
    + cbn [includes] in H. rewrite Hp in H. cbn [orb] in H.
      destruct (IH H) as [before [rest [E [Hfirst Hr]]]].
      exists (String c before), rest. split; [simpl; now rewrite <- E|]. split.
      * intros lead tail El Hne. destruct lead as [|x lead].
        -- simpl in El. subst tail. simpl. now rewrite <- E.
        -- simpl in El. inversion El; subst. now apply (Hfirst lead tail).
      * rewrite replace_unfold, Hp, Hr. reflexivity.
Qed.

(** No occurrence of the pattern starts in [before] when none starts in
    any of its non-empty ends, and then none lies in it. *)
Lemma no_start_no_occurrence pat before rest :
  pat <> ""%string ->
  (forall lead tail,
     before = (lead ++ tail)%string -> tail <> ""%string ->
     String.prefix pat (tail ++ pat ++ rest) = false) ->
  includes pat before = false.
Proof.
  intros Hpat. induction before as [|c before IH]; intros Hfirst.
  - simpl. rewrite orb_false_r. destruct pat; [congruence | reflexivity].
  - cbn [includes]. apply orb_false_iff. split.
    + destruct (String.prefix pat (String c before)) eqn:Hp; [|reflexivity].
      apply (prefix_app_true _ _ (pat ++ rest)) in Hp.
      rewrite (Hfirst ""%string (String c before)) in Hp; [discriminate | reflexivity | discriminate].
    + apply IH. intros lead tail E Hne.
      apply (Hfirst (String c lead) tail); [simpl; now rewrite E | exact Hne].
Qed.

(** The placeholder cannot start in a text that does not hold it and
    run over into a placeholder that follows. *)
Lemma placeholder_not_astride before rest :
  String.prefix "{env}" before = false ->
  before <> ""%string ->
  String.prefix "{env}" (before ++ "{env}" ++ rest) = false.
Proof.
  intros Hp Hne.
  destruct before as [|c1 [|c2 [|c3 [|c4 [|c5 before]]]]];
    [congruence| | | | |];
    cbn [append String.prefix] in *;
    repeat match goal with
           | |- context [Ascii.ascii_dec ?a ?b] =>
               destruct (Ascii.ascii_dec a b); try discriminate; try reflexivity
           | H : context [Ascii.ascii_dec ?a ?b] |- _ =>
               destruct (Ascii.ascii_dec a b); try discriminate; try reflexivity
           end;
    subst; try discriminate; try congruence;
    try (destruct before; simpl in Hp; discriminate).
Qed.

Lemma replace_placeholder_at by_ before rest :
  includes "{env}" before = false ->
  replace "{env}" by_ (before ++ "{env}" ++ rest) = (before ++ by_ ++ rest)%string.
Proof.
  induction before as [|c before IH]; intros H.
  - exact (replace_here "{env}" by_ rest).
  - cbn [includes] in H. apply orb_false_iff in H. destruct H as [Hp Hi].
    rewrite replace_unfold.
    change (String c before ++ "{env}" ++ rest)%string
      with (String c (before ++ "{env}" ++ rest)).
    change (String c (before ++ "{env}" ++ rest))
      with (String c before ++ "{env}" ++ rest)%string at 1.
    rewrite (placeholder_not_astride (String c before) rest Hp) by discriminate.
    cbn [append]. f_equal. now apply IH.
Qed.

(** X12 - The {env} placeholder. For a configured service,
    [getEnvPath] has no effect and returns the [envPath] in which the
    first "{env}" is replaced by "stg" for staging and "prod" for
    production. A path without the placeholder is returned unchanged,
    the same file for both environments. A path with the placeholder
    splits at its first occurrence, before which none starts, and the
    result is the text before it, the suffix, and the text after it
    untouched, later placeholders included. This is so for every split
    of the path around a placeholder with none in the text before. *)
Theorem env_path_placeholder {W : Type} (this : Manager)
  (serviceName : string) (service : ServiceConfig) (s : W * list event) :
  getServiceByName this serviceName = Some service ->
  let suffix :=
    match environment this with staging => "stg" | production => "prod" end in
  (includes "{env}" (envPath service) = false ->
   getEnvPath this serviceName s = (inr (envPath service), s)) /\
  (includes "{env}" (envPath service) = true ->
   exists before rest,
     envPath service = (before ++ "{env}" ++ rest)%string /\
     includes "{env}" before = false /\
     (forall lead tail,
        before = (lead ++ tail)%string -> tail <> ""%string ->
        String.prefix "{env}" (tail ++ "{env}" ++ rest) = false) /\
     getEnvPath this serviceName s
       = (inr (before ++ suffix ++ rest)%string, s)) /\
  (forall before rest,
     envPath service = (before ++ "{env}" ++ rest)%string ->
     includes "{env}" before = false ->
     getEnvPath this serviceName s
       = (inr (before ++ suffix ++ rest)%string, s)).
Proof.
  intros Hsvc suffix. unfold getEnvPath. rewrite Hsvc. fold suffix.
  unfold ret. split; [|split].
  - intros H. now rewrite replace_absent.
  - intros H.
    destruct (replace_first "{env}" suffix (envPath service) H)
      as [before [rest [E [Hfirst Hr]]]].
    exists before, rest. split; [exact E|]. split; [|split; [exact Hfirst|]].
    + apply (no_start_no_occurrence "{env}" before rest);
        [discriminate | exact Hfirst].
    + now rewrite Hr.
  - intros before rest E Hfree. rewrite E.
    now rewrite replace_placeholder_at.
Qed.

(** The text before the placeholder holds a brace of its own. *)
Lemma env_path_placeholder_witness :
  getEnvPath (W := unit)
    {| environment := production;
       configManager :=
         {| services := [{| svc_name := "web";
                            envPath := "{cfg}/.web.{env}.env.{env}";
                            targetPath := "services/web/.env";
                            secretPrefix := "web-env-vars" |}];
            projectIds := fun _ => "demo";
            deletePolicy := None |} |}
    "web" (tt, [])
  = (inr "{cfg}/.web.prod.env.{env}", (tt, [])).
Proof.
  apply (proj2 (proj2 (env_path_placeholder (W := unit)
                         {| environment := production;
                            configManager :=
                              {| services := [{| svc_name := "web";
                                                 envPath := "{cfg}/.web.{env}.env.{env}";
                                                 targetPath := "services/web/.env";
                                                 secretPrefix := "web-env-vars" |}];
                                 projectIds := fun _ => "demo";
                                 deletePolicy := None |} |}
                         "web"
                         {| svc_name := "web";
                            envPath := "{cfg}/.web.{env}.env.{env}";
                            targetPath := "services/web/.env";
                            secretPrefix := "web-env-vars" |}
                         (tt, []) eq_refl))
           "{cfg}/.web." ".env.{env}");
    reflexivity.
Defined.

(** * Beyond the claims: download, set and peek *)

Lemma accessesOf_app t1 t2 : accessesOf (t1 ++ t2) = accessesOf t1 ++ accessesOf t2.
Proof. apply flat_map_app. Qed.

Lemma diskChanges_app t1 t2 : diskChanges (t1 ++ t2) = diskChanges t1 ++ diskChanges t2.
Proof. apply flat_map_app. Qed.

Section LatestVersionRuns.

Context {W : Type}.
Variable reader : Latest W.
Variable dirname : string -> string.
Variable this : Manager.

Lemma secretNameOf_found serviceName service :
  getServiceByName this serviceName = Some service ->
  secretNameOf this serviceName = inr (secretNameOfService service).
Proof. unfold secretNameOf, getSecretName. now intros ->. Qed.

Lemma envPathOf_found serviceName service :
  getServiceByName this serviceName = Some service ->
  envPathOf this serviceName
  = inr (replace "{env}"
           match environment this with staging => "stg" | production => "prod" end
           (envPath service)).
Proof. unfold envPathOf, getEnvPath. now intros ->. Qed.

(** Writing under a directory that is there: the write alone. *)
Lemma writeUnder_there path envContent w t :
  existsSync reader (dirname path) w = true ->
  writeUnder reader dirname path envContent (w, t)
  = (fst (writeFileSync reader path envContent w),
     (snd (writeFileSync reader path envContent w),
      t ++ [Did (WriteFile path envContent)])).
Proof.
  intros H. unfold writeUnder, Sync.bind, Sync.look, Sync.perform, Sync.ret.
  cbn [fst snd]. rewrite H. cbn [negb fst snd].
  now destruct (writeFileSync reader path envContent w).
Qed.

(** Writing under a directory that is not there: it is made first. *)
Lemma writeUnder_missing path envContent w w1 t :
  existsSync reader (dirname path) w = false ->
  mkdirSync reader (dirname path) w = (inr tt, w1) ->
  writeUnder reader dirname path envContent (w, t)
  = (fst (writeFileSync reader path envContent w1),
     (snd (writeFileSync reader path envContent w1),
      t ++ [Did (MkdirRecursive (dirname path));
            Did (WriteFile path envContent)])).
Proof.
  intros H Hmk. unfold writeUnder, Sync.bind, Sync.look, Sync.perform, Sync.ret.
  cbn [fst snd]. rewrite H. cbn [negb fst snd]. rewrite Hmk. cbn [fst snd].
  rewrite <- app_assoc.
  now destruct (writeFileSync reader path envContent w1).
Qed.

(** One peek: it returns normally and only asks for the latest version. *)
Lemma peekSingleEnv_run serviceName service w t :
  getServiceByName this serviceName = Some service ->
  exists w' t',
    peekSingleEnv reader this serviceName (w, t) = (inr tt, (w', t ++ t')) /\
    accessesOf t' = [latestOf this (secretNameOfService service)] /\
    diskChanges t' = [].
Proof.
  intros Hsvc. unfold peekSingleEnv.
  rewrite (secretNameOf_found _ _ Hsvc).
  unfold Sync.bind at 1, Sync.lift. unfold Sync.bind at 1, Sync.consoleLog at 1.
  cbn [fst snd]. unfold Sync.bind at 1, Sync.tryCatch, Sync.bind at 1,
    Sync.perform. cbn [fst snd].
  destruct (accessSecretVersion reader
              (latestOf this (secretNameOfService service)) w)
    as [[e|version] w1].
  - destruct (includes "NOT_FOUND" (message e));
      unfold Sync.consoleLog, Sync.consoleError; cbn [fst snd];
      eexists; eexists; rewrite <- !app_assoc; repeat split.
  - destruct (payloadData version) as [envContent|].
    + unfold Sync.consoleLog. cbn [fst snd].
      eexists; eexists; rewrite <- !app_assoc; repeat split.
    + unfold Sync.throw. cbn [includes String.prefix noData message].
      match goal with
      | |- context [if ?b then _ else _] => destruct b
      end;
        unfold Sync.consoleLog, Sync.consoleError; cbn [fst snd];
        eexists; eexists; rewrite <- !app_assoc; repeat split.
Qed.

Lemma peekAll_loop names :
  (forall n, In n names -> In n (getServiceNames this)) ->
  forall w t,
  exists w' t',
    Sync.forOf names (peekSingleEnv reader this) (w, t) = (inr tt, (w', t ++ t')) /\
    accessesOf t' = map (latestOf this) (resolvedSecrets this names) /\
    diskChanges t' = [].
Proof.
  induction names as [|n names IH]; intros Hconf w t.
  - exists w, []. now rewrite app_nil_r.
  - destruct (getServiceByName_configured this n) as [s Hs]; [apply Hconf; now left|].
    destruct (peekSingleEnv_run n s w t Hs) as [w1 [t1 [E1 [A1 D1]]]].
    destruct (IH (fun x Hx => Hconf x (or_intror Hx)) w1 (t ++ t1))
      as [w2 [t2 [E2 [A2 D2]]]].
    exists w2, (t1 ++ t2). cbn [Sync.forOf]. unfold Sync.bind at 1.
    rewrite E1, E2, app_assoc, accessesOf_app, diskChanges_app, A1, A2, D1, D2.
    unfold resolvedSecrets. cbn [flat_map]. rewrite Hs. repeat split.
Qed.

End LatestVersionRuns.

(** X13 - Peek never throws and never writes. For a configured service,
    or for "all", [peekEnv] returns normally whatever the client
    answers, a failed request and an answer without data included; it
    asks for [versions/latest] of each service's secret, once each in
    configuration order, and makes no directory and writes no file. *)
Theorem peek_never_throws_nor_writes {W : Type} (reader : Latest W)
  (this : Manager) (serviceName : string) (w : W) (t : list syncEvent) :
  (serviceName = "all" \/ getServiceByName this serviceName <> None) ->
  exists w' t',
    peekEnv reader this serviceName (w, t) = (inr tt, (w', t ++ t')) /\
    accessesOf t'
      = map (latestOf this)
            (resolvedSecrets this
               (if (serviceName =? "all")%string
                then getServiceNames this else [serviceName])) /\
    diskChanges t' = [].
Proof.
  intros Hknown. unfold peekEnv.
  destruct (serviceName =? "all")%string eqn:Hall.
  - apply (peekAll_loop reader this (getServiceNames this) (fun n H => H)).
  - destruct Hknown as [->|Hknown]; [discriminate|].
    destruct (getServiceByName this serviceName) as [s|] eqn:Hs; [|congruence].
    destruct (peekSingleEnv_run reader this serviceName s w t Hs)
      as [w' [t' [E [A D]]]].
    exists w', t'. unfold resolvedSecrets. cbn [flat_map]. rewrite Hs.
    now rewrite app_nil_r.
Qed.

(** Neither secret exists yet. *)
Lemma peek_never_throws_nor_writes_witness :
  exists w' t',
    peekEnv (Disk.reader (inl Demo.notFound) (inr tt))
      (Demo.manager staging None) "all" ([], [])
      = (inr tt, (w', [] ++ t')) /\
    diskChanges t' = [].
Proof.
  destruct (peek_never_throws_nor_writes
              (Disk.reader (inl Demo.notFound) (inr tt))
              (Demo.manager staging None) "all" [] [] (or_introl eq_refl))
    as [w' [t' [E [_ D]]]].
  exists w', t'. split; [exact E | exact D].
Defined.

(** X14 - A download or a set that gets no data writes nothing. For a
    configured service, when the request for the latest version fails,
    or its answer has no payload or no data, [downloadEnv] and [setEnv]
    write the reason to the error console and throw it: the error of
    the request itself, or "No data found for secret <name>". This
    request is the only thing done: no directory is made and no file
    written. *)
Theorem no_data_writes_nothing {W : Type} (reader : Latest W)
  (dirname : string -> string) (this : Manager) (serviceName : string)
  (service : ServiceConfig) (answer : Error + AccessSecretVersionResponse)
  (reason : Error) (w w1 : W) (t : list syncEvent) :
  (serviceName =? "all")%string = false ->
  getServiceByName this serviceName = Some service ->
  accessSecretVersion reader (latestOf this (secretNameOfService service)) w
    = (answer, w1) ->
  accessFailure (secretNameOfService service) answer = Some reason ->
  downloadEnv reader dirname this serviceName (w, t)
    = (inl reason,
       (w1, t ++ [Did (AccessSecretVersion
                         (latestOf this (secretNameOfService service)));
                  Err (CouldNotDownload (message reason))])) /\
  setEnv reader dirname this serviceName (w, t)
    = (inl reason,
       (w1, t ++ [Did (AccessSecretVersion
                         (latestOf this (secretNameOfService service)));
                  Err (CouldNotSet (message reason))])).
Proof.
  intros Hall Hsvc Hacc Hfail.
  unfold downloadEnv, setEnv, downloadSingleEnv, setSingleEnv, getTargetPath.
  rewrite Hall, (secretNameOf_found _ _ _ Hsvc), (envPathOf_found _ _ _ Hsvc), Hsvc.
  unfold Sync.lift, Sync.tryCatch, Sync.bind, Sync.perform, Sync.consoleError,
    Sync.throw.
  cbn [fst snd]. rewrite Hacc. unfold accessFailure in Hfail.
  destruct answer as [e|version].
  - inversion Hfail; subst. cbn [fst snd].
    rewrite <- !app_assoc. split; reflexivity.
  - destruct (payloadData version); [discriminate|]. inversion Hfail; subst.
    cbn [fst snd]. rewrite <- !app_assoc. split; reflexivity.
Qed.

(** The latest version comes back without a payload. *)
Lemma no_data_writes_nothing_witness :
  downloadEnv (Disk.reader (inr {| payload := None |}) (inr tt)) Disk.dirname
    (Demo.manager staging None) "api" ([], [])
  = (inl {| message := "No data found for secret api-env-vars_ENV_FILE" |},
     ([], [] ++ [Did (AccessSecretVersion
                        "projects/demo-stg/secrets/api-env-vars_ENV_FILE/versions/latest");
                 Err (CouldNotDownload
                        "No data found for secret api-env-vars_ENV_FILE")])).
Proof.
  apply (no_data_writes_nothing
           (Disk.reader (inr {| payload := None |}) (inr tt)) Disk.dirname
           (Demo.manager staging None) "api" Demo.api
           (inr {| payload := None |})
           {| message := "No data found for secret api-env-vars_ENV_FILE" |}
           [] [] []); reflexivity.
Defined.

Section WritingTheLatest.

Context {W : Type}.
Variable reader : Latest W.
Variable dirname : string -> string.
Variable this : Manager.
Variable serviceName : string.
Variable service : ServiceConfig.
Variable version : AccessSecretVersionResponse.
Variable envContent : string.

Hypothesis service_found : getServiceByName this serviceName = Some service.
Hypothesis has_data : payloadData version = Some envContent.

(** A download whose request is answered with data: the rest is the
    write, and the line that reports it or its failure. *)
Lemma downloadSingleEnv_data w w1 t :
  accessSecretVersion reader (latestOf this (secretNameOfService service)) w
    = (inr version, w1) ->
  downloadSingleEnv reader dirname this serviceName (w, t)
  = let path := replace "{env}"
                  match environment this with staging => "stg" | production => "prod" end
                  (envPath service) in
    match writeUnder reader dirname path envContent
            (w1, t ++ [Did (AccessSecretVersion
                              (latestOf this (secretNameOfService service)))]) with
    | (inl e, (w', t')) => (inl e, (w', t' ++ [Err (CouldNotDownload (message e))]))
    | (inr _, (w', t')) =>
        (inr tt, (w', t' ++ [Out (Downloaded path (environment this))]))
    end.
Proof.
  intros Hacc. unfold downloadSingleEnv.
  rewrite (secretNameOf_found _ _ _ service_found),
    (envPathOf_found _ _ _ service_found).
  unfold Sync.lift, Sync.bind at 1. unfold Sync.bind at 1.
  unfold Sync.tryCatch, Sync.bind at 1, Sync.perform at 1. cbn [fst snd].
  rewrite Hacc, has_data. unfold Sync.bind at 1.
  destruct (writeUnder reader dirname _ envContent _) as [[e|[]] [w' t']].
  - reflexivity.
  - reflexivity.
Qed.

Lemma setSingleEnv_data w w1 t :
  accessSecretVersion reader (latestOf this (secretNameOfService service)) w
    = (inr version, w1) ->
  setSingleEnv reader dirname this serviceName (w, t)
  = match writeUnder reader dirname (targetPath service) envContent
            (w1, t ++ [Did (AccessSecretVersion
                              (latestOf this (secretNameOfService service)))]) with
    | (inl e, (w', t')) => (inl e, (w', t' ++ [Err (CouldNotSet (message e))]))
    | (inr _, (w', t')) =>
        (inr tt, (w', t' ++ [Out (SetIn (targetPath service) (environment this))]))
    end.
Proof.
  intros Hacc. unfold setSingleEnv, getTargetPath.
  rewrite (secretNameOf_found _ _ _ service_found), service_found.
  unfold Sync.lift, Sync.bind at 1. unfold Sync.bind at 1.
  unfold Sync.tryCatch, Sync.bind at 1, Sync.perform at 1. cbn [fst snd].
  rewrite Hacc, has_data. unfold Sync.bind at 1.
  destruct (writeUnder reader dirname _ envContent _) as [[e|[]] [w' t']].
  - reflexivity.
  - reflexivity.
Qed.

End WritingTheLatest.

(** X15 - Download writes the latest payload. For a configured service,
    when the request for [versions/latest] of its secret is answered
    with data, [downloadEnv] writes exactly that data to the service's
    environment file for the current environment, the file [uploadEnv]
    reads. The directory of the file is made first when, and only
    when, it does not exist. The download succeeds if the write does;
    a failed write is reported on the error console and thrown. *)
Theorem download_writes_the_latest_payload {W : Type} (reader : Latest W)
  (dirname : string -> string) (this : Manager) (serviceName : string)
  (service : ServiceConfig) (version : AccessSecretVersionResponse)
  (envContent : string) (w w1 : W) (t : list syncEvent) :
  let path :=
    replace "{env}"
      match environment this with staging => "stg" | production => "prod" end
      (envPath service) in
  let asked :=
    t ++ [Did (AccessSecretVersion (latestOf this (secretNameOfService service)))] in
  let finish (made : list syncEvent) (written : (Error + unit) * W) :=
    match written with
    | (inr _, w') =>
        (inr tt, (w', asked ++ made ++ [Did (WriteFile path envContent);
                                        Out (Downloaded path (environment this))]))
    | (inl e, w') =>
        (inl e, (w', asked ++ made ++ [Did (WriteFile path envContent);
                                       Err (CouldNotDownload (message e))]))
    end in
  (serviceName =? "all")%string = false ->
  getServiceByName this serviceName = Some service ->
  accessSecretVersion reader (latestOf this (secretNameOfService service)) w
    = (inr version, w1) ->
  payloadData version = Some envContent ->
  (existsSync reader (dirname path) w1 = true ->
   downloadEnv reader dirname this serviceName (w, t)
     = finish [] (writeFileSync reader path envContent w1)) /\
  (forall w2,
     existsSync reader (dirname path) w1 = false ->
     mkdirSync reader (dirname path) w1 = (inr tt, w2) ->
     downloadEnv reader dirname this serviceName (w, t)
       = finish [Did (MkdirRecursive (dirname path))]
                (writeFileSync reader path envContent w2)).
Proof.
  intros path asked finish Hall Hsvc Hacc Hdata.
  unfold downloadEnv. rewrite Hall.
  rewrite (downloadSingleEnv_data reader dirname this serviceName service version
             envContent Hsvc Hdata w w1 t Hacc).
  cbv zeta. fold path. split.
  - intros Hthere. rewrite (writeUnder_there _ _ _ _ _ _ Hthere).
    unfold finish, asked.
    destruct (writeFileSync reader path envContent w1) as [[e|[]] w'];
      cbn [fst snd app]; now rewrite <- !app_assoc.
  - intros w2 Hmissing Hmk.
    rewrite (writeUnder_missing _ _ _ _ _ _ _ Hmissing Hmk).
    unfold finish, asked.
    destruct (writeFileSync reader path envContent w2) as [[e|[]] w'];
      cbn [fst snd app]; now rewrite <- !app_assoc.
Qed.

(** No directory exists yet: [.environments] is made, then written to. *)
Lemma download_writes_the_latest_payload_witness :
  downloadEnv (Disk.reader (Disk.holding "PORT=1") (inr tt)) Disk.dirname
    (Demo.manager staging None) "api" ([], [])
  = (inr tt,
     ([".environments"],
      ([] ++ [Did (AccessSecretVersion
                     "projects/demo-stg/secrets/api-env-vars_ENV_FILE/versions/latest")])
      ++ [Did (MkdirRecursive ".environments")]
      ++ [Did (WriteFile ".environments/.api.stg.env" "PORT=1");
          Out (Downloaded ".environments/.api.stg.env" staging)])).
Proof.
  apply (proj2 (download_writes_the_latest_payload
                  (Disk.reader (Disk.holding "PORT=1") (inr tt)) Disk.dirname
                  (Demo.manager staging None) "api" Demo.api
                  {| payload := Some {| data := Some "PORT=1" |} |} "PORT=1"
                  [] [] [] eq_refl eq_refl eq_refl eq_refl)
           [".environments"]); reflexivity.
Defined.

(** X16 - Download with [--set]. In the download case of
    [handleOperation], a download that throws ends the operation with
    that error and the set is not attempted. When the download
    succeeds and [--set] is given, the set asks the store for the
    latest version again and writes what this second answer holds to
    the service's [targetPath]: the downloaded file is not read back. *)
Theorem set_fetches_the_latest_again {W : Type} (reader : Latest W)
  (dirname : string -> string) (this : Manager) (serviceName : string)
  (service : ServiceConfig) :
  (serviceName =? "all")%string = false ->
  getServiceByName this serviceName = Some service ->
  (forall shouldSetEnv e s s1,
     downloadEnv reader dirname this serviceName s = (inl e, s1) ->
     handleDownload reader dirname this serviceName shouldSetEnv s = (inl e, s1)) /\
  (forall s s1 w2 version envContent,
     downloadEnv reader dirname this serviceName s = (inr tt, s1) ->
     accessSecretVersion reader (latestOf this (secretNameOfService service)) (fst s1)
       = (inr version, w2) ->
     payloadData version = Some envContent ->
     existsSync reader (dirname (targetPath service)) w2 = true ->
     handleDownload reader dirname this serviceName true s
       = match writeFileSync reader (targetPath service) envContent w2 with
         | (inr _, w3) =>
             (inr tt,
              (w3, snd s1
                   ++ [Did (AccessSecretVersion
                              (latestOf this (secretNameOfService service)));
                       Did (WriteFile (targetPath service) envContent);
                       Out (SetIn (targetPath service) (environment this))]))
         | (inl e, w3) =>
             (inl e,
              (w3, snd s1
                   ++ [Did (AccessSecretVersion
                              (latestOf this (secretNameOfService service)));
                       Did (WriteFile (targetPath service) envContent);
                       Err (CouldNotSet (message e))]))
         end).
Proof.
  intros Hall Hsvc. split.
  - intros shouldSetEnv e s s1 Hdown.
    unfold handleDownload, Sync.bind. now rewrite Hdown.
  - intros [w t] [w1 t1] w2 version envContent Hdown Hacc Hdata Hthere.
    cbn [fst snd] in *.
    unfold handleDownload, Sync.bind. rewrite Hdown.
    unfold setEnv. rewrite Hall.
    rewrite (setSingleEnv_data reader dirname this serviceName service version
               envContent Hsvc Hdata w1 w2 t1 Hacc).
    rewrite (writeUnder_there _ _ _ _ _ _ Hthere).
    destruct (writeFileSync reader (targetPath service) envContent w2)
      as [[e|[]] w3]; cbn [fst snd]; now rewrite <- !app_assoc.
Qed.

(** Both directories exist; the store holds "PORT=1". *)
Lemma set_fetches_the_latest_again_witness :
  handleDownload (Disk.reader (Disk.holding "PORT=1") (inr tt)) Disk.dirname
    (Demo.manager staging None) "api" true
    ([".environments"; "services/api"], [])
  = (inr tt,
     ([".environments"; "services/api"],
      [Did (AccessSecretVersion
              "projects/demo-stg/secrets/api-env-vars_ENV_FILE/versions/latest");
       Did (WriteFile ".environments/.api.stg.env" "PORT=1");
       Out (Downloaded ".environments/.api.stg.env" staging)]
      ++ [Did (AccessSecretVersion
                 "projects/demo-stg/secrets/api-env-vars_ENV_FILE/versions/latest");
          Did (WriteFile "services/api/.env" "PORT=1");
          Out (SetIn "services/api/.env" staging)])).
Proof.
  apply (proj2 (set_fetches_the_latest_again
                  (Disk.reader (Disk.holding "PORT=1") (inr tt)) Disk.dirname
                  (Demo.manager staging None) "api" Demo.api eq_refl eq_refl)
           ([".environments"; "services/api"], [])
           ([".environments"; "services/api"],
            [Did (AccessSecretVersion
                    "projects/demo-stg/secrets/api-env-vars_ENV_FILE/versions/latest");
             Did (WriteFile ".environments/.api.stg.env" "PORT=1");
             Out (Downloaded ".environments/.api.stg.env" staging)])
           [".environments"; "services/api"]
           {| payload := Some {| data := Some "PORT=1" |} |} "PORT=1");
    reflexivity.
Defined.

(** The upload into a secret that exists, when the addition succeeds:
    the three steps, the cleanup, the closing line. *)
Lemma uploadSingleEnv_existing {W : Type} (client : Client W)
  (files : string -> option string) (now : Date) (this : Manager)
  (serviceName envContent : string) (service : ServiceConfig)
  (version : SecretVersion) (w w1 w2 : W) (t : list event) :
  let secretName := secretNameOfService service in
  let secretPath := secretPathOf this secretName in
  let added :=
    t ++ [Request (GetSecret secretPath);
          Request (AddSecretVersion secretPath envContent);
          ConsoleLog (UpdatedSecret secretName (name version))] in
  getServiceByName this serviceName = Some service ->
  files (replace "{env}"
           match environment this with staging => "stg" | production => "prod" end
           (envPath service)) = Some envContent ->
  getSecret client secretPath w = (inr tt, w1) ->
  addSecretVersion client secretPath envContent w1 = (inr version, w2) ->
  exists w3 t3,
    uploadSingleEnv client files now this serviceName (w, t)
      = (inr tt,
         (w3, added ++ t3 ++ [ConsoleLog (Uploaded serviceName (environment this))])) /\
    addCalls t3 = [].
Proof.
  intros secretName secretPath added Hsvc Hfile Hget Hadd.
  destruct (cleanupSecretVersions_run client now this secretName w2 added)
    as [w3 [t3 [E [A _]]]].
  exists w3, t3. split; [|exact A].
  rewrite (uploadSingleEnv_found client files now this serviceName service
             envContent Hsvc Hfile).
  unfold bind at 1, tryCatch, bind at 1, call at 1. cbn [fst snd].
  fold secretName. fold secretPath. rewrite Hget.
  unfold bind at 1, call at 1. cbn [fst snd]. rewrite Hadd.
  unfold bind at 1, consoleLog at 1. cbn [fst snd].
  replace (((t ++ [Request (GetSecret secretPath)])
              ++ [Request (AddSecretVersion secretPath envContent)])
             ++ [ConsoleLog (UpdatedSecret secretName (name version))])
    with added by (unfold added; now rewrite <- !app_assoc).
  rewrite E. unfold consoleLog. cbn [fst snd]. now rewrite <- app_assoc.
Qed.

(** X17 - Upload and download meet. For a configured service and one
    environment: the upload adds the content of the environment file
    as a version of the secret "projects/<project>/secrets/<prefix>_ENV_FILE"
    and adds nothing else; the download asks for [versions/latest] of
    that same secret and writes to that same file. So when the store
    answers with the content that was added, the download puts back
    exactly what the upload read. *)
Theorem download_restores_what_upload_read {W U : Type} (client : Client W)
  (reader : Latest U) (files : string -> option string)
  (dirname : string -> string) (now : Date) (this : Manager)
  (serviceName envContent : string) (service : ServiceConfig)
  (version : SecretVersion) (latest : AccessSecretVersionResponse)
  (w w1 w2 : W) (t : list event) (u u1 u2 : U) (tu : list syncEvent) :
  let path :=
    replace "{env}"
      match environment this with staging => "stg" | production => "prod" end
      (envPath service) in
  let secretPath := secretPathOf this (secretNameOfService service) in
  (serviceName =? "all")%string = false ->
  getServiceByName this serviceName = Some service ->
  files path = Some envContent ->
  getSecret client secretPath w = (inr tt, w1) ->
  addSecretVersion client secretPath envContent w1 = (inr version, w2) ->
  accessSecretVersion reader (secretPath ++ "/versions/latest") u = (inr latest, u1) ->
  payloadData latest = Some envContent ->
  existsSync reader (dirname path) u1 = true ->
  writeFileSync reader path envContent u1 = (inr tt, u2) ->
  (exists s', uploadEnv client files now this serviceName (w, t) = (inr tt, s') /\
              addCalls (snd s') = addCalls t ++ [(secretPath, envContent)]) /\
  downloadEnv reader dirname this serviceName (u, tu)
    = (inr tt,
       (u2, tu ++ [Did (AccessSecretVersion (secretPath ++ "/versions/latest"));
                   Did (WriteFile path envContent);
                   Out (Downloaded path (environment this))])).
Proof.
  intros path secretPath Hall Hsvc Hfile Hget Hadd Hacc Hdata Hthere Hwrite.
  split.
  - destruct (uploadSingleEnv_existing client files now this serviceName envContent
                service version w w1 w2 t Hsvc Hfile Hget Hadd)
      as [w3 [t3 [E A]]].
    unfold uploadEnv. rewrite Hall, E. eexists. split; [reflexivity|].
    cbn [snd]. rewrite !addCalls_app, A. simpl. now rewrite app_nil_r.
  - unfold downloadEnv. rewrite Hall.
    rewrite (downloadSingleEnv_data reader dirname this serviceName service latest
               envContent Hsvc Hdata u u1 tu Hacc).
    cbv zeta. fold path.
    rewrite (writeUnder_there _ _ _ _ _ _ Hthere), Hwrite. cbn [fst snd].
    now rewrite <- !app_assoc.
Qed.

(** The staging file of [api] goes up and comes back. *)
Lemma download_restores_what_upload_read_witness :
  downloadEnv (Disk.reader (Disk.holding "PORT=8080") (inr tt)) Disk.dirname
    (Demo.manager staging None) "api" ([".environments"], [])
  = (inr tt,
     ([".environments"],
      [] ++ [Did (AccessSecretVersion
                    ("projects/demo-stg/secrets/api-env-vars_ENV_FILE"
                     ++ "/versions/latest"));
             Did (WriteFile ".environments/.api.stg.env" "PORT=8080");
             Out (Downloaded ".environments/.api.stg.env" staging)])).
Proof.
  apply (download_restores_what_upload_read
           (Demo.store [] [] (inr tt) (inr Demo.added) (inr tt))
           (Disk.reader (Disk.holding "PORT=8080") (inr tt))
           Demo.files Disk.dirname (utc 0) (Demo.manager staging None)
           "api" "PORT=8080" Demo.api Demo.added
           {| payload := Some {| data := Some "PORT=8080" |} |}
           tt tt tt [] [".environments"] [".environments"] [".environments"] []);
    reflexivity.
Defined.

(** * Beyond the claims: validation of the configuration *)

(** A limit the validation lets through: absent, or an integer of 0 or
    more. An [enabled] it lets through: absent, or a boolean. *)
Lemma badLimit_spec coerced x :
  badLimit coerced x = false <->
  x = JUndefined \/ exists z, 0 <= z /\ x = JNum (JInt z).
Proof.
  unfold badLimit, lessThanZero, isUndefined, isInteger. split.
  - destruct x as [| |b|[z|neg]|s|items|fields]; simpl;
      try (rewrite orb_true_r; discriminate); try (now left).
    + rewrite orb_false_r. intros H. apply Z.ltb_ge in H. right. now exists z.
  - intros [->|[z [Hz ->]]]; simpl; [reflexivity|].
    rewrite orb_false_r. now apply Z.ltb_ge.
Qed.

Lemma validateServices_accepted items index :
  validateServices items index = Accepted <->
  Forall (fun service => nullish service = false /\ incomplete service = false) items.
Proof.
  revert index. induction items as [|service rest IH]; intros index; simpl.
  - split; [constructor | reflexivity].
  - destruct (nullish service) eqn:Hn.
    + split; [discriminate|]. intros H. inversion H as [|? ? [H1 H2] H3]; subst.
      congruence.
    + destruct (incomplete service) eqn:Hi.
      * split; [discriminate|]. intros H. inversion H as [|? ? [H1 H2] H3]; subst.
        congruence.
      * rewrite IH. split; [now constructor|]. intros H. now inversion H.
Qed.

(** X18 - What validateDeletePolicy accepts. Whatever the policy value
    is and however the language compares a non-number with 0, the
    policy is accepted exactly when [maxVersions] and [maxAgeDays] are
    each absent or an integer number of 0 or more, and [enabled] is
    absent or a boolean; so [null], a numeric string, a fraction or a
    negative number as a limit are all refused. The first field at
    fault, in that order, names the error. *)
Theorem delete_policy_accepted_iff (coerced : JsValue -> bool) (policy : JsValue) :
  let fine (x : JsValue) :=
    x = JUndefined \/ exists z, 0 <= z /\ x = JNum (JInt z) in
  (validateDeletePolicy coerced policy = Accepted <->
   fine (prop policy "maxVersions") /\
   fine (prop policy "maxAgeDays") /\
   (prop policy "enabled" = JUndefined \/
    exists b, prop policy "enabled" = JBool b)) /\
  (~ fine (prop policy "maxVersions") ->
   validateDeletePolicy coerced policy
   = Rejected "deletePolicy.maxVersions must be a non-negative integer") /\
  (fine (prop policy "maxVersions") -> ~ fine (prop policy "maxAgeDays") ->
   validateDeletePolicy coerced policy
   = Rejected "deletePolicy.maxAgeDays must be a non-negative integer").
Proof.
  intros fine. unfold validateDeletePolicy.
  pose proof (badLimit_spec coerced (prop policy "maxVersions")) as Hv.
  pose proof (badLimit_spec coerced (prop policy "maxAgeDays")) as Ha.
  fold (fine (prop policy "maxVersions")) in Hv.
  fold (fine (prop policy "maxAgeDays")) in Ha.
  assert (He : negb (isUndefined (prop policy "enabled"))
               && negb (isBoolean (prop policy "enabled")) = false <->
               (prop policy "enabled" = JUndefined \/
                exists b, prop policy "enabled" = JBool b)).
  { destruct (prop policy "enabled") as [| |b|n|s|items|fields]; simpl;
      split; try discriminate; try tauto; try (now left);
      try (intros _; right; now exists b);
      intros [H|[b' H]]; discriminate. }
  destruct (badLimit coerced (prop policy "maxVersions"));
    destruct (badLimit coerced (prop policy "maxAgeDays"));
    destruct (negb (isUndefined (prop policy "enabled"))
              && negb (isBoolean (prop policy "enabled")));
    (split; [|split]); intuition (discriminate || congruence).
Qed.

(** The string "5" as [maxVersions] is refused, also when the
    comparison with 0 lets it through. *)
Lemma delete_policy_accepted_iff_witness :
  validateDeletePolicy (fun _ => false)
    (Parsed.policy (JStr "5") (JNum (JInt 30)))
  = Rejected "deletePolicy.maxVersions must be a non-negative integer".
Proof.
  apply (delete_policy_accepted_iff (fun _ => false)
           (Parsed.policy (JStr "5") (JNum (JInt 30)))).
  intros [H|[z [_ H]]]; discriminate.
Defined.

(** X19 - What an accepted configuration holds. When [validateConfig]
    accepts a parsed configuration, both service account paths and
    both project ids are there and not empty; [services] is absent (or
    another falsy value) or an array whose every entry has a non-empty
    [name], [envPath], [targetPath] and [secretPrefix]; and
    [deletePolicy] is absent (or falsy) or passes
    [validateDeletePolicy]. *)
Theorem accepted_config_is_complete (coerced : JsValue -> bool) (config : JsValue) :
  validateConfig coerced config = Accepted ->
  truthy (prop (prop config "serviceAccountPaths") "staging") = true /\
  truthy (prop (prop config "serviceAccountPaths") "production") = true /\
  truthy (prop (prop config "projectIds") "staging") = true /\
  truthy (prop (prop config "projectIds") "production") = true /\
  (truthy (prop config "services") = false \/
   exists items,
     prop config "services" = JArr items /\
     Forall (fun service =>
               truthy (prop service "name") = true /\
               truthy (prop service "envPath") = true /\
               truthy (prop service "targetPath") = true /\
               truthy (prop service "secretPrefix") = true) items) /\
  (truthy (prop config "deletePolicy") = false \/
   validateDeletePolicy coerced (prop config "deletePolicy") = Accepted).
Proof.
  unfold validateConfig. destruct (nullish config); [discriminate|].
  unfold lacksBoth.
  destruct (truthy (prop config "serviceAccountPaths")); simpl; [|discriminate].
  destruct (truthy (prop (prop config "serviceAccountPaths") "staging"));
    simpl; [|discriminate].
  destruct (truthy (prop (prop config "serviceAccountPaths") "production"));
    simpl; [|discriminate].
  destruct (truthy (prop config "projectIds")); simpl; [|discriminate].
  destruct (truthy (prop (prop config "projectIds") "staging"));
    simpl; [|discriminate].
  destruct (truthy (prop (prop config "projectIds") "production"));
    simpl; [|discriminate].
  intros H. repeat (split; [reflexivity|]).
  destruct (truthy (prop config "services")) eqn:Ht; simpl in H.
  - destruct (prop config "services") as [| |b|n|s|items|fields] eqn:Es;
      simpl in H; try discriminate.
    destruct (validateServices items 0) eqn:Ev; try discriminate.
    split.
    + right. exists items. split; [reflexivity|].
      apply validateServices_accepted in Ev.
      eapply Forall_impl; [|exact Ev]. intros service [_ Hi].
      unfold incomplete in Hi.
      repeat (apply orb_false_iff in Hi; destruct Hi as [Hi ?]).
      repeat match goal with
             | H : negb _ = false |- _ => apply negb_false_iff in H
             end.
      tauto.
    + destruct (truthy (prop config "deletePolicy")); [now right | now left].
  - split; [now left|].
    destruct (prop config "services") as [| |b|n|s|items|fields];
      simpl in Ht; try discriminate;
      (destruct (truthy (prop config "deletePolicy")); [now right | now left]).
Qed.

Lemma accepted_config_is_complete_witness :
  validateDeletePolicy Parsed.pessimist
    (prop (Parsed.config [Parsed.service "api" "api-env-vars"]
             (Parsed.policy (JNum (JInt 10)) (JNum (JInt 30))))
          "deletePolicy")
  = Accepted.
Proof.
  destruct (accepted_config_is_complete Parsed.pessimist
              (Parsed.config [Parsed.service "api" "api-env-vars"]
                 (Parsed.policy (JNum (JInt 10)) (JNum (JInt 30))))
              eq_refl)
    as [_ [_ [_ [_ [_ [H|H]]]]]].
  - discriminate H.
  - exact H.
Defined.

(** X20 - The first incomplete service is the one reported. When the
    account paths and project ids are in place and [services] is an
    array that starts with complete entries followed by an object
    lacking one of the four fields, the configuration is refused with
    "Service at index <i> is missing required fields: ...", [i] being
    the position of that entry counted from 0; the entries after it
    and the delete policy are not looked at. *)
Theorem first_incomplete_service_is_reported (coerced : JsValue -> bool)
  (config : JsValue) (complete rest : list JsValue) (faulty : JsValue) :
  nullish config = false ->
  lacksBoth (prop config "serviceAccountPaths") = false ->
  lacksBoth (prop config "projectIds") = false ->
  prop config "services" = JArr (complete ++ faulty :: rest) ->
  Forall (fun service => nullish service = false /\ incomplete service = false)
         complete ->
  nullish faulty = false ->
  incomplete faulty = true ->
  validateConfig coerced config
  = Rejected (missingFields (List.length complete)).
Proof.
  intros Hc Hs Hp Hserv Hcomplete Hn Hi.
  unfold validateConfig. rewrite Hc, Hs, Hp, Hserv. simpl.
  assert (H : forall index,
             validateServices (complete ++ faulty :: rest) index
             = Rejected (missingFields (index + List.length complete))).
  { clear Hserv. induction Hcomplete as [|service complete [Hsn Hsi] _ IH];
      intros index; simpl.
    - now rewrite Hn, Hi, Nat.add_0_r.
    - rewrite Hsn, Hsi, IH. now rewrite Nat.add_succ_r. }
  now rewrite H.
Qed.

(** The third service has an empty [secretPrefix]; what follows it is
    [null] and is never reached. *)
Lemma first_incomplete_service_is_reported_witness :
  validateConfig Parsed.pessimist
    (Parsed.config [Parsed.service "api" "api-env-vars";
                    Parsed.service "web" "web-env-vars";
                    Parsed.service "jobs" "";
                    JNull]
       (Parsed.policy (JNum (JInt (-1))) JNull))
  = Rejected
      "Service at index 2 is missing required fields: name, envPath, targetPath, secretPrefix".
Proof.
  apply (first_incomplete_service_is_reported Parsed.pessimist
           (Parsed.config [Parsed.service "api" "api-env-vars";
                           Parsed.service "web" "web-env-vars";
                           Parsed.service "jobs" "";
                           JNull]
              (Parsed.policy (JNum (JInt (-1))) JNull))
           [Parsed.service "api" "api-env-vars"; Parsed.service "web" "web-env-vars"]
           [JNull] (Parsed.service "jobs" ""));
    try reflexivity.
  repeat constructor.
Defined.

(** * Beyond the claims: the command line *)

Lemma hasArg_In args a : hasArg args a = true <-> In a args.
Proof.
  unfold hasArg. rewrite existsb_exists. split.
  - intros [x [Hx E]]. apply String.eqb_eq in E. now subst.
  - intros H. exists a. split; [exact H | apply String.eqb_refl].
Qed.

Lemma operationOf_download flag :
  (flag =? "--download")%string || (flag =? "-d")%string = true ->
  operationOf flag = Some Download.
Proof.
  unfold operationOf. intros H. apply orb_true_iff in H.
  destruct H as [H|H]; apply String.eqb_eq in H; subst; reflexivity.
Qed.

(** X21 - What main hands over. Whenever [main] reaches
    [handleOperation], the operation is the one named by the first
    argument in lower case; exactly one of [--stg] and [--prod] was
    given and it fixes the environment; [--set] was given only with a
    download; the service name is the lower-cased argument that follows
    the first [--service] or [-s], and it is "all" or one of the names
    the configuration at the given [--config] path holds; and none of
    the help, init, list, add or remove flags was present. *)
Theorem operate_is_well_formed (toLowerCase : string -> string)
  (serviceNames : option string -> Error + list string)
  (args : list string) (op : operation) (serviceName : string)
  (env : Environment) (shouldSetEnv overrideSa : bool)
  (configPath : option string) :
  main toLowerCase serviceNames args
    = Operate op serviceName env shouldSetEnv overrideSa configPath ->
  operationOf (toLowerCase (hd ""%string args)) = Some op /\
  (In "--stg" args <-> env = staging) /\
  (In "--prod" args <-> env = production) /\
  (shouldSetEnv = true -> op = Download) /\
  shouldSetEnv = hasArg args "--set" /\
  overrideSa = hasArg args "--override-sa" /\
  configPath = configPathOf args /\
  (exists given,
     argAfter args
       (findIndex (fun arg => (arg =? "--service")%string || (arg =? "-s")%string)
                  args) = Some given /\
     serviceName = toLowerCase given) /\
  (serviceName = "all" \/
   exists names, serviceNames configPath = inr names /\ In serviceName names) /\
  Forall (fun flag => ~ In flag args)
         ["--help"; "-h"; "--init"; "--list"; "--add-service"; "--remove-service"].
Proof.
  unfold main.
  destruct (List.length args =? 0)%nat; [discriminate|].
  destruct (hasArg args "--help") eqn:Hhelp; [discriminate|].
  destruct (hasArg args "-h") eqn:Hh; [discriminate|].
  destruct (hasArg args "--init") eqn:Hinit; [discriminate|].
  destruct (hasArg args "--list") eqn:Hlist; [discriminate|].
  destruct (hasArg args "--add-service") eqn:Hadd; [discriminate|].
  destruct (hasArg args "--remove-service") eqn:Hrem; [discriminate|].
  cbn [orb].
  set (flag := toLowerCase (hd ""%string args)).
  destruct (hasArg args "--set"
            && negb ((flag =? "--download")%string || (flag =? "-d")%string))
    eqn:Hset; [discriminate|].
  destruct (argAfter args _) as [given|] eqn:Hgiven; [|discriminate].
  destruct (hasArg args "--stg") eqn:Hstg;
    destruct (hasArg args "--prod") eqn:Hprod; cbn [negb andb];
    try discriminate.
  all: intros H.
  all: assert (Hrun : match operationOf flag with
                      | Some op0 =>
                          Operate op0 (toLowerCase given)
                            (if hasArg args "--stg" then staging else production)
                            (hasArg args "--set") (hasArg args "--override-sa")
                            (configPathOf args)
                      | None => Exit1 InvalidFlag
                      end
                      = Operate op serviceName env shouldSetEnv overrideSa configPath
                    /\ (toLowerCase given = "all" \/
                        exists names,
                          serviceNames (configPathOf args) = inr names /\
                          In (toLowerCase given) names)).
  1,3: rewrite Hstg;
       destruct (toLowerCase given =? "all")%string eqn:Hall; cbn [negb] in H;
       [ split; [exact H | left; now apply String.eqb_eq]
       | destruct (serviceNames (configPathOf args)) as [e|names] eqn:Hnames;
         [discriminate|];
         destruct (hasArg names (toLowerCase given)) eqn:Hin; cbn [negb] in H;
         [|discriminate];
         split; [exact H | right; exists names; split;
                           [reflexivity | now apply hasArg_In]] ].
  all: destruct Hrun as [Hrun Hknown];
       destruct (operationOf flag) as [op0|] eqn:Hop; [|discriminate];
       inversion Hrun; subst; clear Hrun;
       rewrite ?Hstg, ?Hprod in *.
  all: repeat split; try reflexivity; try discriminate;
       try (rewrite <- hasArg_In; congruence);
       try (intros Hx; apply hasArg_In in Hx; congruence);
       try exact Hknown;
       try (exists given; now split).
  all: try (intros Hs; rewrite Hs in Hset; cbn [andb] in Hset;
            apply negb_false_iff in Hset;
            rewrite (operationOf_download _ Hset) in Hop; congruence).
  all: repeat constructor; intros Hx; apply hasArg_In in Hx; congruence.
Qed.

Lemma operate_is_well_formed_witness :
  operationOf (Ascii7.toLowerCase (hd ""%string
     ["--Download"; "--service"; "Web"; "--prod"; "--set"]))
  = Some Download.
Proof.
  apply (operate_is_well_formed Ascii7.toLowerCase (Ascii7.serviceNames ["api"; "web"])
           ["--Download"; "--service"; "Web"; "--prod"; "--set"]
           Download "web" production true false None).
  reflexivity.
Defined.

(** * Beyond the claims: download and set of all services *)

Lemma syncForOf_stops {W A} (body : A -> Sync.M W unit) done failing later s s1 s2 e :
  Sync.forOf done body s = (inr tt, s1) ->
  body failing s1 = (inl e, s2) ->
  Sync.forOf (done ++ failing :: later) body s = (inl e, s2).
Proof.
  revert s. induction done as [|x done IH]; intros s Hdone Hfail.
  - cbn in Hdone. inversion Hdone; subst. cbn [app Sync.forOf].
    unfold Sync.bind. now rewrite Hfail.
  - cbn [app Sync.forOf] in *. unfold Sync.bind in *.
    destruct (body x s) as [[e'|[]] s'].
    + discriminate.
    + now apply IH.
Qed.

(** X22 - Download and set of all services stop at the first failure.
    When the downloads (or sets) of the first services succeed and the
    next one throws, [downloadEnv("all")] (or [setEnv("all")]) throws
    that error in the state that service left, and the services after
    it are not asked for: unlike peek and cleanup, which go through all
    of them. *)
Theorem download_all_stops_at_first_failure {W : Type} (reader : Latest W)
  (dirname : string -> string) (this : Manager)
  (done later : list string) (failing : string) (e : Error)
  (s s1 s2 : W * list syncEvent) :
  getServiceNames this = done ++ failing :: later ->
  (Sync.forOf done (downloadSingleEnv reader dirname this) s = (inr tt, s1) ->
   downloadSingleEnv reader dirname this failing s1 = (inl e, s2) ->
   downloadEnv reader dirname this "all" s = (inl e, s2)) /\
  (Sync.forOf done (setSingleEnv reader dirname this) s = (inr tt, s1) ->
   setSingleEnv reader dirname this failing s1 = (inl e, s2) ->
   setEnv reader dirname this "all" s = (inl e, s2)).
Proof.
  intros Hnames. unfold downloadEnv, setEnv. rewrite String.eqb_refl, Hnames.
  split; intros Hdone Hfail; eapply syncForOf_stops; eassumption.
Qed.

(** The store has no data for [api]: [web] is never asked for. *)
Lemma download_all_stops_at_first_failure_witness :
  downloadEnv (Disk.reader (inr {| payload := None |}) (inr tt)) Disk.dirname
    (Demo.manager staging None) "all" ([], [])
  = (inl {| message := "No data found for secret api-env-vars_ENV_FILE" |},
     ([],
      [Did (AccessSecretVersion
              "projects/demo-stg/secrets/api-env-vars_ENV_FILE/versions/latest");
       Err (CouldNotDownload "No data found for secret api-env-vars_ENV_FILE")])).
Proof.
  apply (proj1 (download_all_stops_at_first_failure
                  (Disk.reader (inr {| payload := None |}) (inr tt)) Disk.dirname
                  (Demo.manager staging None) [] ["web"] "api"
                  {| message := "No data found for secret api-env-vars_ENV_FILE" |}
                  ([], [])
                  ([], [])
                  ([],
                   [Did (AccessSecretVersion
                           "projects/demo-stg/secrets/api-env-vars_ENV_FILE/versions/latest");
                    Err (CouldNotDownload
                           "No data found for secret api-env-vars_ENV_FILE")])
                  eq_refl));
    reflexivity.
Defined.
